(** * Peer-mesh chat engine of [src/views/Chat.vue]

    A shallow embedding of the synchronisation core of the chat view: the
    message log and roster with their merge rules ([handlePeerData]), the
    connection lifecycle ([joinRoom], [handleConnection]), the local send
    path ([sendMessage]), teardown ([handleDisconnect]) and the idle
    monitor ([setupTimeoutCheck]).

    Conventions.
    - JavaScript strings are [string]; every character stands for one
      code unit below 256.
    - [Date.now()] is an input of the operation that reads it: an integer
      number of milliseconds, [Z].  An operation that reads the clock
      several times takes one argument per reading.
    - [connections] is a JS object used as a map keyed by peer address:
      a [gmap string Conn.t].
    - Calls into the transport and the router are recorded as a list of
      [Effect]s returned next to the new state.
    - Two behaviours of the libraries the view runs on are part of the
      model.  Vue: [watch(messages, cb)] on a ref without [deep] runs [cb]
      after an assignment to [messages.value], not after a mutation of
      the array it holds.  PeerJS: [conn.close()] on an open connection
      clears [conn.open] and emits ['close'] before it returns;
      [peer.destroy()] closes the connections the peer object still
      tracks and sets [peer.destroyed]. *)

From Stdlib Require Import ZArith List Bool Ascii String Sorted Permutation Lia.
From stdpp Require Import gmap strings list fin_maps pretty.

Import ListNotations.
Local Open Scope Z_scope.
Local Open Scope string_scope.
Local Open Scope list_scope.

(** ** Data model *)

(** [interface Message]. *)
Module Message.
Record t : Type := mk
  { id : string;
    sender : string;
    senderId : string;
    content : string;
    timestamp : Z }.
End Message.

(** [interface Participant]. *)
Module Participant.
Record t : Type := mk
  { id : string;
    username : string;
    isConnected : bool }.

(** [p.isConnected = false] on a roster entry. *)
Definition disconnect (p : t) : t :=
  {| id := id p; username := username p; isConnected := false |}.
End Participant.

(** The application frames [{type, data}].  A frame whose [type] is none
    of the four known tags falls through the [switch]. *)
Inductive Frame : Type :=
| USER_INFO (id username : string)
| INIT_MESSAGES (data : list Message.t)
| INIT_PARTICIPANTS (data : list Participant.t)
| NEW_MESSAGE (data : Message.t)
| UNKNOWN (type : string).

(** The [metadata] option of [peer.connect]; PeerJS stores it on the
    connection object of the caller and delivers it with the offer, so the
    accepting side reads the same value from [conn.metadata]. *)
Module Metadata.
Record t : Type := mk { username : string; joinRoom : bool }.

Definition eqb (a b : t) : bool :=
  String.eqb (username a) (username b) && Bool.eqb (joinRoom a) (joinRoom b).
End Metadata.

(** A PeerJS data connection as far as the view reads it. *)
Module Conn.
Record t : Type := mk
  { peer : string;
    metadata : option Metadata.t;
    open : bool }.

(** [conn.close()]: the connection is no longer open. *)
Definition closed (c : t) : t :=
  {| peer := peer c; metadata := metadata c; open := false |}.

(** Two connection objects that read the same. *)
Definition eqb (a b : t) : bool :=
  String.eqb (peer a) (peer b)
  && match metadata a, metadata b with
     | Some x, Some y => Metadata.eqb x y
     | None, None => true
     | _, _ => false
     end
  && Bool.eqb (open a) (open b).
End Conn.

(** The [Peer] object held in [peer.value]: its [destroyed] flag and the
    connections it tracks ([peer.connections]), oldest first.  PeerJS adds
    a connection when [connect] creates it or an offer brings it in, and
    drops it when the connection closes. *)
Module Peer.
Record t : Type := mk { destroyed : bool; connections : list Conn.t }.

Definition track (c : Conn.t) (p : t) : t :=
  {| destroyed := destroyed p; connections := connections p ++ [c] |}.

Fixpoint remove_first (c : Conn.t) (l : list Conn.t) : list Conn.t :=
  match l with
  | [] => []
  | x :: l' => if Conn.eqb x c then l' else x :: remove_first c l'
  end.

Definition untrack (c : Conn.t) (p : t) : t :=
  {| destroyed := destroyed p; connections := remove_first c (connections p) |}.
End Peer.

(** Calls that leave the component. *)
Inductive Effect : Type :=
| Send (to : string) (f : Frame)
| ConnClose (p : string)
| PeerDestroy
| PeerConnect (target : string) (md : Metadata.t)
| RouterPush (path : string)
| ClearInterval (handle : Z)
| RemoveUnloadListener.

(** The refs of the component.  [watchQueued] is the scheduler entry of
    [watch(messages, ...)]: the watcher observes the ref itself, so it is
    queued by an assignment to [messages.value] and by nothing else. *)
Record State : Type := mkState
  { roomId : string;
    username : string;
    message : string;
    messages : list Message.t;
    participants : list Participant.t;
    peer : option Peer.t;
    connections : gmap string Conn.t;
    peerId : string;
    isConnected : bool;
    errorMessage : string;
    lastActivityTime : Z;
    timeoutCheckInterval : option Z;
    isRoomCreator : bool;
    watchQueued : bool }.

Definition set_messages (ms : list Message.t) (q : bool) (st : State) : State :=
  {| roomId := roomId st; username := username st; message := message st;
     messages := ms; participants := participants st; peer := peer st;
     connections := connections st; peerId := peerId st;
     isConnected := isConnected st; errorMessage := errorMessage st;
     lastActivityTime := lastActivityTime st;
     timeoutCheckInterval := timeoutCheckInterval st;
     isRoomCreator := isRoomCreator st; watchQueued := q |}.

Definition set_participants (ps : list Participant.t) (st : State) : State :=
  {| roomId := roomId st; username := username st; message := message st;
     messages := messages st; participants := ps; peer := peer st;
     connections := connections st; peerId := peerId st;
     isConnected := isConnected st; errorMessage := errorMessage st;
     lastActivityTime := lastActivityTime st;
     timeoutCheckInterval := timeoutCheckInterval st;
     isRoomCreator := isRoomCreator st; watchQueued := watchQueued st |}.

Definition set_connections (cs : gmap string Conn.t) (st : State) : State :=
  {| roomId := roomId st; username := username st; message := message st;
     messages := messages st; participants := participants st; peer := peer st;
     connections := cs; peerId := peerId st;
     isConnected := isConnected st; errorMessage := errorMessage st;
     lastActivityTime := lastActivityTime st;
     timeoutCheckInterval := timeoutCheckInterval st;
     isRoomCreator := isRoomCreator st; watchQueued := watchQueued st |}.

Definition set_peer (p : option Peer.t) (st : State) : State :=
  {| roomId := roomId st; username := username st; message := message st;
     messages := messages st; participants := participants st; peer := p;
     connections := connections st; peerId := peerId st;
     isConnected := isConnected st; errorMessage := errorMessage st;
     lastActivityTime := lastActivityTime st;
     timeoutCheckInterval := timeoutCheckInterval st;
     isRoomCreator := isRoomCreator st; watchQueued := watchQueued st |}.

(** What PeerJS does to the peer object when it starts, or stops, to track
    a connection; nothing without a peer object. *)
Definition track_conn (c : Conn.t) (st : State) : State :=
  set_peer (option_map (Peer.track c) (peer st)) st.

Definition untrack_conn (c : Conn.t) (st : State) : State :=
  set_peer (option_map (Peer.untrack c) (peer st)) st.

Definition set_message (m : string) (st : State) : State :=
  {| roomId := roomId st; username := username st; message := m;
     messages := messages st; participants := participants st; peer := peer st;
     connections := connections st; peerId := peerId st;
     isConnected := isConnected st; errorMessage := errorMessage st;
     lastActivityTime := lastActivityTime st;
     timeoutCheckInterval := timeoutCheckInterval st;
     isRoomCreator := isRoomCreator st; watchQueued := watchQueued st |}.

Definition set_errorMessage (m : string) (st : State) : State :=
  {| roomId := roomId st; username := username st; message := message st;
     messages := messages st; participants := participants st; peer := peer st;
     connections := connections st; peerId := peerId st;
     isConnected := isConnected st; errorMessage := m;
     lastActivityTime := lastActivityTime st;
     timeoutCheckInterval := timeoutCheckInterval st;
     isRoomCreator := isRoomCreator st; watchQueued := watchQueued st |}.

Definition set_lastActivityTime (t : Z) (q : bool) (st : State) : State :=
  {| roomId := roomId st; username := username st; message := message st;
     messages := messages st; participants := participants st; peer := peer st;
     connections := connections st; peerId := peerId st;
     isConnected := isConnected st; errorMessage := errorMessage st;
     lastActivityTime := t;
     timeoutCheckInterval := timeoutCheckInterval st;
     isRoomCreator := isRoomCreator st; watchQueued := q |}.

(** ** Array primitives *)

(** [xs.sort((a, b) => a.timestamp - b.timestamp)].  [Array.prototype.sort]
    is stable, and for a comparator that is a total preorder the stable
    result is unique; it is computed here by stable insertion. *)
Fixpoint insert_by_timestamp (x : Message.t) (l : list Message.t) : list Message.t :=
  match l with
  | [] => [x]
  | y :: l' =>
      if (Message.timestamp x - Message.timestamp y <=? 0)%Z
      then x :: y :: l'
      else y :: insert_by_timestamp x l'
  end.

Definition sort_by_timestamp (l : list Message.t) : list Message.t :=
  List.fold_right insert_by_timestamp [] l.

(** [messages.value.some(m => m.id === i)]. *)
Definition has_message (i : string) (ms : list Message.t) : bool :=
  List.existsb (fun m => String.eqb (Message.id m) i) ms.

(** [participants.value.some(p => p.id === i)]. *)
Definition has_participant (i : string) (ps : list Participant.t) : bool :=
  List.existsb (fun p => String.eqb (Participant.id p) i) ps.

(** [participants.value.findIndex(p => p.id === i)], [None] for [-1]. *)
Fixpoint findIndex (i : string) (ps : list Participant.t) : option nat :=
  match ps with
  | [] => None
  | p :: ps' =>
      if String.eqb (Participant.id p) i then Some O
      else option_map S (findIndex i ps')
  end.

(** ** The sync protocol handler *)

Definition handlePeerData (from : string) (data : Frame) (st : State) : State :=
  match data with
  | USER_INFO i u =>
      if negb (has_participant i (participants st))
      then set_participants
             (participants st ++ [Participant.mk i u true]) st
      else st
  | INIT_MESSAGES ms =>
      let newMessages :=
        List.filter (fun msg => negb (has_message (Message.id msg) (messages st))) ms in
      set_messages (sort_by_timestamp (messages st ++ newMessages)) true st
  | INIT_PARTICIPANTS ps =>
      let newParticipants :=
        List.filter (fun p => negb (has_participant (Participant.id p) (participants st))) ps in
      set_participants (participants st ++ newParticipants) st
  | NEW_MESSAGE m =>
      if negb (has_message (Message.id m) (messages st))
      then set_messages (sort_by_timestamp (messages st ++ [m])) (watchQueued st) st
      else st
  | UNKNOWN _ => st
  end.

(** ** Strings *)

(** White space of [String.prototype.trim] among the code units below 256:
    TAB, LF, VT, FF, CR, SPACE and NO-BREAK SPACE. *)
Definition is_whitespace (c : ascii) : bool :=
  let n := N_of_ascii c in
  ((9 <=? n)%N && (n <=? 13)%N) || (n =? 32)%N || (n =? 160)%N.

Fixpoint trimStart (s : string) : string :=
  match s with
  | EmptyString => EmptyString
  | String c s' => if is_whitespace c then trimStart s' else s
  end.

Fixpoint trimEnd (s : string) : string :=
  match s with
  | EmptyString => EmptyString
  | String c s' =>
      match trimEnd s' with
      | EmptyString => if is_whitespace c then EmptyString else String c EmptyString
      | r => String c r
      end
  end.

(** [s.trim()]. *)
Definition trim (s : string) : string := trimEnd (trimStart s).

Fixpoint whitespace_only (s : string) : bool :=
  match s with
  | EmptyString => true
  | String c s' => is_whitespace c && whitespace_only s'
  end.

(** Truthiness of a string: only the empty string is falsy. *)
Definition truthy (s : string) : bool :=
  match s with EmptyString => false | _ => true end.

(** The template literal [`${peerId.value}-${Date.now()}`]; an integer
    time value prints in decimal. *)
Definition message_id (pid : string) (now : Z) : string :=
  pid +:+ "-" +:+ pretty now.

(** ** Session clock *)

(** [15 * 60 * 1000] *)
Definition sessionTimeout : Z := 15 * 60 * 1000.

(** Period given to [setInterval] in [setupTimeoutCheck]. *)
Definition timeoutCheckPeriod : Z := 60000.

(** The callback of [watch(messages, ...)], run by the scheduler when the
    watcher has been queued; [now] is its [Date.now()]. *)
Definition flushWatchers (now : Z) (st : State) : State :=
  if watchQueued st then set_lastActivityTime now false st else st.

(** The interval callback of [setupTimeoutCheck]. *)
Definition timeoutCheck (currentTime : Z) (st : State) : State * list Effect :=
  let timeSinceLastActivity := currentTime - lastActivityTime st in
  if (sessionTimeout <? timeSinceLastActivity)%Z
  then (st, [RouterPush "/"])
  else (st, []).

(** ** Connection manager *)

(** [connections.value[conn.peer] = conn]; the event handlers registered
    here are [onConnOpen], [onConnData], [onConnClose] below. *)
Definition handleConnection (conn : Conn.t) (st : State) : State :=
  set_connections (<[Conn.peer conn := conn]> (connections st)) st.

(** [peer.value?.connect(target, {reliable, metadata})]: no connection
    without a live peer object, else a fresh, not yet open connection
    that carries the metadata it was requested with; [joinRoom] below
    records that the peer object tracks it. *)
Definition peer_connect (p : option Peer.t) (target : string) (md : Metadata.t)
  : option Conn.t :=
  match p with
  | Some pr =>
      if Peer.destroyed pr then None
      else Some (Conn.mk target (Some md) false)
  | None => None
  end.

(** The connection object handed to [peer.on('connection', ...)] on the
    accepting side for an offer of [from] made with metadata [md]. *)
Definition incoming (from : string) (md : option Metadata.t) : Conn.t :=
  Conn.mk from md false.

Definition joinRoom (st : State) : State * list Effect :=
  if negb (isRoomCreator st) then
    let md := Metadata.mk (username st) true in
    match peer_connect (peer st) (roomId st) md with
    | Some conn =>
        (handleConnection conn (track_conn conn st), [PeerConnect (roomId st) md])
    | None =>
        (set_errorMessage "Failed to establish connection to the room." st, [])
    end
  else (st, []).

(** [conn.metadata?.joinRoom] *)
Definition is_join_request (conn : Conn.t) : bool :=
  match Conn.metadata conn with
  | Some md => Metadata.joinRoom md
  | None => false
  end.

(** [conn.on('open', ...)] *)
Definition onConnOpen (conn : Conn.t) (st : State) : State * list Effect :=
  let st' := set_errorMessage "" st in
  let hello := Send (Conn.peer conn) (USER_INFO (peerId st) (username st)) in
  if is_join_request conn then
    (st', [hello;
           Send (Conn.peer conn) (INIT_MESSAGES (messages st));
           Send (Conn.peer conn) (INIT_PARTICIPANTS (participants st))])
  else (st', [hello]).

(** [conn.on('data', ...)] *)
Definition onConnData (conn : Conn.t) (data : Frame) (st : State) : State :=
  handlePeerData (Conn.peer conn) data st.

(** [conn.on('close', ...)] *)
Definition onConnClose (conn : Conn.t) (st : State) : State :=
  let st' := set_connections (delete (Conn.peer conn) (connections st)) st in
  match findIndex (Conn.peer conn) (participants st') with
  | Some participantIndex =>
      match participants st' !! participantIndex with
      | Some p =>
          set_participants
            (<[participantIndex := Participant.disconnect p]> (participants st')) st'
      | None => st'
      end
  | None => st'
  end.

(** [peer.on('open', id => ...)] *)
Definition onPeerOpen (id : string) (st : State) : State * list Effect :=
  let st1 :=
    {| roomId := roomId st; username := username st; message := message st;
       messages := messages st;
       participants := participants st ++ [Participant.mk id (username st) true];
       peer := peer st; connections := connections st; peerId := id;
       isConnected := true; errorMessage := errorMessage st;
       lastActivityTime := lastActivityTime st;
       timeoutCheckInterval := timeoutCheckInterval st;
       isRoomCreator := isRoomCreator st; watchQueued := watchQueued st |} in
  if negb (isRoomCreator st1) then joinRoom st1 else (st1, []).

(** ** Local send *)

Definition newMessage (t_id t_stamp : Z) (st : State) : Message.t :=
  {| Message.id := message_id (peerId st) t_id;
     Message.sender := username st;
     Message.senderId := peerId st;
     Message.content := message st;
     Message.timestamp := t_stamp |}.

(** [Object.values(connections.value).forEach(conn => conn.send(f))].  The
    enumeration order of the object's keys is not tracked: the values come
    in the order of [map_to_list]. *)
Definition broadcast (f : Frame) (cs : gmap string Conn.t) : list Effect :=
  List.map (fun kc => Send (Conn.peer (snd kc)) f) (map_to_list cs).

(** [sendMessage]; [t_id], [t_stamp] and [t_act] are its three readings
    of [Date.now()], in program order. *)
Definition sendMessage (t_id t_stamp t_act : Z) (st : State) : State * list Effect :=
  if negb (truthy (trim (message st))) || negb (isConnected st) then (st, [])
  else
    let m := newMessage t_id t_stamp st in
    let st1 := set_messages (messages st ++ [m]) (watchQueued st) st in
    let out := broadcast (NEW_MESSAGE m) (connections st1) in
    let st2 := set_message "" st1 in
    (set_lastActivityTime t_act (watchQueued st2) st2, out).

(** ** Teardown *)

(** One turn of the [forEach] of [handleDisconnect] on the connection
    found under key [k].  [conn.close()] on an open connection clears its
    [open] flag, takes the connection off the peer object and emits
    ['close'] before it returns, which runs [onConnClose]. *)
Definition closeIfOpen (kc : string * Conn.t) (acc : State * list Effect)
  : State * list Effect :=
  let '(st, out) := acc in
  let '(k, conn) := kc in
  if Conn.open conn then
    let st1 := set_connections (alter Conn.closed k (connections st)) st in
    (onConnClose conn (untrack_conn conn st1), out ++ [ConnClose (Conn.peer conn)])
  else (st, out).

Definition closeAll (snapshot : list (string * Conn.t)) (acc : State * list Effect)
  : State * list Effect :=
  List.fold_left (fun a kc => closeIfOpen kc a) snapshot acc.

(** What [peer.destroy()] does to the view: PeerJS closes every connection
    the peer object still tracks, oldest first, and each one that was open
    emits ['close'], which runs [onConnClose]; then the peer tracks nothing
    and is destroyed. *)
Definition closeTracked (tracked : list Conn.t) (st : State) : State :=
  List.fold_left
    (fun s conn => if Conn.open conn then onConnClose conn s else s) tracked st.

(** [peer.value && !peer.value.destroyed] guards [peer.value.destroy()]. *)
Definition destroyPeer (acc : State * list Effect) : State * list Effect :=
  let '(st, out) := acc in
  match peer st with
  | Some pr =>
      if negb (Peer.destroyed pr)
      then (set_peer (Some (Peer.mk true [])) (closeTracked (Peer.connections pr) st),
            out ++ [PeerDestroy])
      else (st, out)
  | None => (st, out)
  end.

Definition handleDisconnect (st : State) : State * list Effect :=
  destroyPeer (closeAll (map_to_list (connections st)) (st, [])).

(** The ['beforeunload'] listener. *)
Definition onBeforeUnload (st : State) : State * list Effect :=
  handleDisconnect st.

(** [onBeforeUnmount]: what leaving the chat route runs. *)
Definition onBeforeUnmount (st : State) : State * list Effect :=
  let '(st', out) := handleDisconnect st in
  let clear :=
    match timeoutCheckInterval st' with
    | Some h => if (h =? 0)%Z then [] else [ClearInterval h]
    | None => []
    end in
  (st', out ++ clear ++ [RemoveUnloadListener]).

(** ** Vocabulary of the statements *)

Definition ts_le (a b : Message.t) : Prop :=
  (Message.timestamp a <= Message.timestamp b)%Z.

(** The entries of [l] stamped [t], in the order of [l]. *)
Definition stamped (t : Z) (l : list Message.t) : list Message.t :=
  List.filter (fun m => (Message.timestamp m =? t)%Z) l.

(** A poll ends the session when it asks the router for the home route:
    leaving the chat route unmounts the view. *)
Definition endsSession (out : list Effect) : bool :=
  List.existsb (fun e => match e with RouterPush "/" => true | _ => false end) out.

(** The [v-model] binding of the input box: typing sets the draft. *)
Definition setDraft (text : string) (st : State) : State := set_message text st.

(** The claim of pairwise distinct ids for any two local sends. *)
Definition local_ids_distinct : Prop :=
  forall (st : State) (draft : string) (t1 s1 a1 t2 s2 a2 : Z),
    truthy (trim (message st)) = true -> isConnected st = true ->
    truthy (trim draft) = true ->
    let st1 := fst (sendMessage t1 s1 a1 st) in
    let st2 := fst (sendMessage t2 s2 a2 (setDraft draft st1)) in
    List.NoDup (List.map Message.id (List.skipn (length (messages st)) (messages st2))).

(** The creator of room ["room-1"], connected under the room id, with the
    draft ["hi"] typed. *)
Definition anchor : State :=
  {| roomId := "room-1"; username := "alice"; message := "hi";
     messages := []; participants := [Participant.mk "room-1" "alice" true];
     peer := Some (Peer.mk false []); connections := ∅; peerId := "room-1";
     isConnected := true; errorMessage := ""; lastActivityTime := 0;
     timeoutCheckInterval := Some 1; isRoomCreator := true;
     watchQueued := false |}.

(** A second client that opened the chat route of ["room-1"], before its
    peer object reports its address. *)
Definition joiner : State :=
  {| roomId := "room-1"; username := "bob"; message := "";
     messages := []; participants := [];
     peer := Some (Peer.mk false []); connections := ∅; peerId := "";
     isConnected := false; errorMessage := ""; lastActivityTime := 0;
     timeoutCheckInterval := Some 1; isRoomCreator := false;
     watchQueued := false |}.

(** Everything that can run on the view: transport signals, user input,
    the timers and the host's life-cycle hooks. *)
Inductive Event : Type :=
| PeerOpened (id : string)
| Incoming (conn : Conn.t)
| ConnOpened (conn : Conn.t)
| ConnData (conn : Conn.t) (data : Frame)
| ConnClosed (conn : Conn.t)
| Typed (text : string)
| SendPressed (t_id t_stamp t_act : Z)
| PollTick (now : Z)
| WatcherRun (now : Z)
| BeforeUnload
| Unmount.

(** What each event runs.  PeerJS has put an incoming connection on the
    peer object before it emits ['connection'], and has taken a closing
    one off before it emits ['close']. *)
Definition step (ev : Event) (st : State) : State * list Effect :=
  match ev with
  | PeerOpened id => onPeerOpen id st
  | Incoming conn => (handleConnection conn (track_conn conn st), [])
  | ConnOpened conn => onConnOpen conn st
  | ConnData conn data => (onConnData conn data st, [])
  | ConnClosed conn => (onConnClose conn (untrack_conn conn st), [])
  | Typed text => (setDraft text st, [])
  | SendPressed t_id t_stamp t_act => sendMessage t_id t_stamp t_act st
  | PollTick now => timeoutCheck now st
  | WatcherRun now => (flushWatchers now st, [])
  | BeforeUnload => onBeforeUnload st
  | Unmount => onBeforeUnmount st
  end.

(** What identifies a roster entry: its id and its username. *)
Definition roster_keys (st : State) : list (string * string) :=
  List.map (fun p => (Participant.id p, Participant.username p)) (participants st).

(** The [close()] calls one run of the loop makes on a snapshot. *)
Definition closeCalls (snapshot : list (string * Conn.t)) : list Effect :=
  List.map (fun kc => ConnClose (Conn.peer (snd kc)))
    (List.filter (fun kc => Conn.open (snd kc)) snapshot).

Definition livePeer (st : State) : bool :=
  match peer st with
  | Some pr => negb (Peer.destroyed pr)
  | None => false
  end.

Definition count_destroy (out : list Effect) : nat :=
  length (List.filter (fun e => match e with PeerDestroy => true | _ => false end) out).

Definition count_close (p : string) (out : list Effect) : nat :=
  length (List.filter
            (fun e => match e with ConnClose q => String.eqb q p | _ => false end) out).

(** Does a list of calls contain both backfill frames for peer [p]? *)
Definition sendsBackfill (p : string) (out : list Effect) : bool :=
  List.existsb
    (fun e => match e with
              | Send q (INIT_MESSAGES _) => String.eqb q p
              | _ => false
              end) out
  && List.existsb
       (fun e => match e with
                 | Send q (INIT_PARTICIPANTS _) => String.eqb q p
                 | _ => false
                 end) out.

(** A live message from peer ["J"], stamped 900000. *)
Definition hello_from_J : Message.t :=
  {| Message.id := "J-900000"; Message.sender := "bob"; Message.senderId := "J";
     Message.content := "hello"; Message.timestamp := 900000 |}.

(** ** The rest of the chat view *)

(** The getter of the computed [getTimeLeft], the label next to "Session
    expires in:"; [now] is the [Date.now()] of the evaluation (Vue runs the
    getter again when [lastActivityTime] has changed).  [Math.floor] of a
    positive quotient of integers is the integer quotient. *)
Definition getTimeLeft (now : Z) (st : State) : string :=
  let timeSinceLastActivity := now - lastActivityTime st in
  let timeLeft := sessionTimeout - timeSinceLastActivity in
  if (timeLeft <=? 0)%Z then "0m"
  else
    let minutes := (timeLeft / 60000)%Z in
    pretty minutes +:+ "m".

(** [localStorage.getItem('username') || 'Anonymous']; [localStorage] is a
    map from keys to strings, [getItem] of a missing key is [null]. *)
Definition storedUsername (localStorage : gmap string string) : string :=
  match localStorage !! "username" with
  | Some u => if truthy u then u else "Anonymous"
  | None => "Anonymous"
  end.

(** The refs as the setup of the component creates them for the route
    parameter [room], with the guard [if (!username.value) router.push('/')]. *)
Definition setup (room : string) (localStorage : gmap string string) (now : Z)
  : State * list Effect :=
  let st :=
    {| roomId := room; username := storedUsername localStorage; message := "";
       messages := []; participants := []; peer := None; connections := ∅;
       peerId := ""; isConnected := false; errorMessage := "";
       lastActivityTime := now; timeoutCheckInterval := None;
       isRoomCreator := false; watchQueued := false |} in
  (st, if negb (truthy (username st)) then [RouterPush "/"] else []).

(** [initializePeer], up to the registration of the handlers; the second
    component is the id given to [new Peer], [None] for [undefined]. *)
Definition initializePeer (localStorage : gmap string string) (st : State)
  : State * option string :=
  let creator :=
    match localStorage !! "createdRoomId" with
    | Some storedRoomId => String.eqb storedRoomId (roomId st)
    | None => false
    end in
  let customPeerId := if creator then Some (roomId st) else None in
  ({| roomId := roomId st; username := username st; message := message st;
      messages := messages st; participants := participants st;
      peer := Some (Peer.mk false []); connections := connections st;
      peerId := peerId st; isConnected := isConnected st;
      errorMessage := errorMessage st; lastActivityTime := lastActivityTime st;
      timeoutCheckInterval := timeoutCheckInterval st;
      isRoomCreator := creator; watchQueued := watchQueued st |},
   customPeerId).

(** [onMounted]: [initializePeer], then [setupTimeoutCheck], whose
    [setInterval] returns [handle]. *)
Definition onMounted (localStorage : gmap string string) (handle : Z) (st : State)
  : State * option string :=
  let '(st1, customPeerId) := initializePeer localStorage st in
  ({| roomId := roomId st1; username := username st1; message := message st1;
      messages := messages st1; participants := participants st1;
      peer := peer st1; connections := connections st1;
      peerId := peerId st1; isConnected := isConnected st1;
      errorMessage := errorMessage st1; lastActivityTime := lastActivityTime st1;
      timeoutCheckInterval := Some handle;
      isRoomCreator := isRoomCreator st1; watchQueued := watchQueued st1 |},
   customPeerId).

(** [err.message || 'Unknown error'] *)
Definition errorText (message : option string) : string :=
  match message with
  | Some m => if truthy m then m else "Unknown error"
  | None => "Unknown error"
  end.

(** [peer.value.on('error', ...)] *)
Definition onPeerError (type : string) (message : option string) (st : State) : State :=
  let text :=
    if String.eqb type "peer-unavailable" then
      "Could not connect to the room. The room may not exist or the host is offline."
    else if String.eqb type "network" || String.eqb type "disconnected" then
      "Network connection issue. Please check your internet connection."
    else if String.eqb type "server-error" then
      "PeerJS server error. Please try again later."
    else "Connection error: " +:+ errorText message in
  set_errorMessage text st.

(** [conn.on('error', ...)] *)
Definition onConnError (message : option string) (st : State) : State :=
  set_errorMessage ("Connection error: " +:+ errorText message) st.

(** The callback both error handlers hand to [setTimeout(..., 5000)]. *)
Definition clearError (st : State) : State := set_errorMessage "" st.

(** Every callback of the view: those of [Event] and the error paths. *)
Inductive Signal : Type :=
| Callback (ev : Event)
| PeerFailed (type : string) (message : option string)
| ConnFailed (conn : Conn.t) (message : option string)
| ErrorExpired.

Definition react (sig : Signal) (st : State) : State * list Effect :=
  match sig with
  | Callback ev => step ev st
  | PeerFailed type message => (onPeerError type message st, [])
  | ConnFailed _ message => (onConnError message st, [])
  | ErrorExpired => (clearError st, [])
  end.

(** A run of the view: the signals in order of arrival. *)
Definition run (sigs : list Signal) (st : State) : State :=
  List.fold_left (fun s sig => fst (react sig s)) sigs st.

(** The frames among [out] that were sent to [p], in order. *)
Definition framesTo (p : string) (out : list Effect) : list Frame :=
  List.flat_map
    (fun e => match e with
              | Send q f => if String.eqb q p then [f] else []
              | _ => []
              end) out.

(** The frames [fs] arriving one after the other on the channel from [from]. *)
Definition deliver (from : string) (fs : list Frame) (st : State) : State :=
  List.fold_left (fun s f => handlePeerData from f s) fs st.

(** ** The home view *)

(** The refs of the home view and its two entry points.  [uuid] is the
    value [uuidv4()] returns. *)
Module Home.
Record t : Type := mk
  { username : string;
    joinRoomId : string;
    errorMessage : string }.

Definition createNewRoom (uuid : string) (h : t) (localStorage : gmap string string)
  : t * gmap string string * list Effect :=
  if negb (truthy (trim (username h))) then
    (mk (username h) (joinRoomId h) "Please enter a username", localStorage, [])
  else
    (h,
     <["createdRoomId" := uuid]> (<["username" := username h]> localStorage),
     [RouterPush ("/chat/" +:+ uuid)]).

Definition joinRoom (h : t) (localStorage : gmap string string)
  : t * gmap string string * list Effect :=
  if negb (truthy (trim (username h))) then
    (mk (username h) (joinRoomId h) "Please enter a username", localStorage, [])
  else if negb (truthy (trim (joinRoomId h))) then
    (mk (username h) (joinRoomId h) "Please enter a room ID", localStorage, [])
  else
    (h,
     delete "createdRoomId" (<["username" := username h]> localStorage),
     [RouterPush ("/chat/" +:+ joinRoomId h)]).
End Home.

(** ** Vocabulary of the further statements *)

(** One roster entry seen before and after a callback: same id, same
    username, and not connected afterwards unless connected before. *)
Definition fades (q q' : Participant.t) : Prop :=
  Participant.id q' = Participant.id q
  /\ Participant.username q' = Participant.username q
  /\ (Participant.isConnected q' = true -> Participant.isConnected q = true).

(** Every connection is stored under its own peer address. *)
Definition keyed_by_peer (cs : gmap string Conn.t) : Prop :=
  forall k c, cs !! k = Some c -> Conn.peer c = k.

(** No dash among the characters of [s]. *)
Fixpoint dash_free (s : string) : bool :=
  match s with
  | EmptyString => true
  | String c s' => negb (Ascii.eqb c "-") && dash_free s'
  end.

(** The ids inside the payload of a backfill frame are pairwise distinct. *)
Definition payload_ids_distinct (data : Frame) : Prop :=
  match data with
  | INIT_MESSAGES ms => List.NoDup (List.map Message.id ms)
  | INIT_PARTICIPANTS ps => List.NoDup (List.map Participant.id ps)
  | _ => True
  end.

(** A roster seen before and after some callbacks: the former entries are
    still there, in place, each one faded at most, and entries may have
    been added behind them. *)
Definition roster_evolves (ps ps' : list Participant.t) : Prop :=
  exists kept added, ps' = kept ++ added /\ List.Forall2 fades ps kept.

(** The connections the peer object tracks; none without a peer object. *)
Definition tracked (st : State) : list Conn.t :=
  match peer st with
  | Some pr => Peer.connections pr
  | None => []
  end.

(** The cache of the computed [getTimeLeft]: the string the template
    shows, and whether Vue has to run the getter again at the next access.
    The getter reads one reactive value, [lastActivityTime]; a write that
    changes it marks the cache dirty, and nothing else does. *)
Module Label.
Record t : Type := mk { dirty : bool; value : string }.
End Label.









(** * Properties *)

(** ** The sort *)

Lemma insert_by_timestamp_perm x l :
  Permutation (insert_by_timestamp x l) (x :: l).
Proof.
  induction l as [|y l IH]; simpl; [reflexivity|].
  destruct (Message.timestamp x - Message.timestamp y <=? 0)%Z; [reflexivity|].
  rewrite IH. apply perm_swap.
Qed.

Lemma sort_by_timestamp_perm l : Permutation (sort_by_timestamp l) l.
Proof.
  induction l as [|x l IH]; simpl; [reflexivity|].
  rewrite insert_by_timestamp_perm. now apply perm_skip.
Qed.

Lemma insert_by_timestamp_sorted x l :
  StronglySorted ts_le l -> StronglySorted ts_le (insert_by_timestamp x l).
Proof.
  induction 1 as [|y l Hl IH Hy]; simpl.
  - repeat constructor.
  - destruct (Z.leb_spec (Message.timestamp x - Message.timestamp y) 0) as [Hle|Hgt].
    + constructor; [now constructor|].
      constructor; [unfold ts_le; lia|].
      eapply List.Forall_impl; [|exact Hy].
      intros z Hz. unfold ts_le in *. lia.
    + constructor; [exact IH|].
      apply (Permutation_Forall (Permutation_sym (insert_by_timestamp_perm x l))).
      constructor; [unfold ts_le; lia | exact Hy].
Qed.

Lemma sort_by_timestamp_sorted l : StronglySorted ts_le (sort_by_timestamp l).
Proof.
  induction l as [|x l IH]; simpl; [constructor|].
  now apply insert_by_timestamp_sorted.
Qed.

Lemma sort_by_timestamp_fixpoint l :
  StronglySorted ts_le l -> sort_by_timestamp l = l.
Proof.
  induction 1 as [|x l Hl IH Hx]; simpl; [reflexivity|].
  rewrite IH. destruct l as [|y l]; simpl; [reflexivity|].
  inversion Hx as [|? ? Hxy _]; subst.
  destruct (Z.leb_spec (Message.timestamp x - Message.timestamp y) 0);
    [reflexivity | unfold ts_le in Hxy; lia].
Qed.

Lemma insert_by_timestamp_stamped t x l :
  stamped t (insert_by_timestamp x l) = stamped t (x :: l).
Proof.
  induction l as [|y l IH]; [reflexivity|].
  cbn [insert_by_timestamp].
  destruct (Z.leb_spec (Message.timestamp x - Message.timestamp y) 0) as [Hle|Hgt];
    [reflexivity|].
  unfold stamped in *. cbn [List.filter] in *. rewrite IH.
  destruct (Z.eqb_spec (Message.timestamp x) t) as [Hx|Hx];
    destruct (Z.eqb_spec (Message.timestamp y) t) as [Hy|Hy];
    try reflexivity; lia.
Qed.

(** Stability: entries with equal timestamps keep their relative order. *)
Lemma sort_by_timestamp_stable t l :
  stamped t (sort_by_timestamp l) = stamped t l.
Proof.
  induction l as [|x l IH]; [reflexivity|].
  cbn [sort_by_timestamp List.fold_right].
  rewrite insert_by_timestamp_stamped.
  unfold stamped in *. cbn [List.filter]. fold (sort_by_timestamp l).
  now rewrite IH.
Qed.

(** ** Membership by id *)

Lemma has_message_In i ms :
  has_message i ms = true <-> In i (List.map Message.id ms).
Proof.
  unfold has_message. rewrite List.existsb_exists, List.in_map_iff.
  split; intros [m [H1 H2]]; exists m.
  - apply String.eqb_eq in H2. tauto.
  - split; [tauto|]. apply String.eqb_eq. tauto.
Qed.

Lemma has_participant_In i ps :
  has_participant i ps = true <-> In i (List.map Participant.id ps).
Proof.
  unfold has_participant. rewrite List.existsb_exists, List.in_map_iff.
  split; intros [m [H1 H2]]; exists m.
  - apply String.eqb_eq in H2. tauto.
  - split; [tauto|]. apply String.eqb_eq. tauto.
Qed.

Lemma sort_by_timestamp_ids i l :
  In i (List.map Message.id (sort_by_timestamp l)) <-> In i (List.map Message.id l).
Proof.
  pose proof (Permutation_map Message.id (sort_by_timestamp_perm l)) as P.
  split; apply Permutation_in; [exact P | symmetry; exact P].
Qed.

Lemma filter_none {A} (f : A -> bool) l :
  (forall x, In x l -> f x = false) -> List.filter f l = [].
Proof.
  induction l as [|x l IH]; intros H; simpl; [reflexivity|].
  rewrite (H x (or_introl eq_refl)). apply IH. intros y Hy. apply H. now right.
Qed.

(** Once merged, nothing of the payload is new any more. *)
Lemma fresh_messages_absorbed (old data : list Message.t) merged :
  (forall i, In i (List.map Message.id merged) <->
             In i (List.map Message.id
                     (old ++ List.filter
                        (fun msg => negb (has_message (Message.id msg) old)) data))) ->
  List.filter (fun msg => negb (has_message (Message.id msg) merged)) data = [].
Proof.
  intros Hids. apply filter_none. intros m Hm.
  apply negb_false_iff, has_message_In, Hids.
  rewrite List.map_app, List.in_app_iff.
  destruct (has_message (Message.id m) old) eqn:E.
  - left. now apply has_message_In.
  - right. apply List.in_map, List.filter_In. now rewrite E.
Qed.

Lemma fresh_participants_absorbed (old data : list Participant.t) :
  List.filter
    (fun p => negb (has_participant (Participant.id p)
       (old ++ List.filter
          (fun p => negb (has_participant (Participant.id p) old)) data))) data = [].
Proof.
  apply filter_none. intros p Hp.
  apply negb_false_iff, has_participant_In.
  rewrite List.map_app, List.in_app_iff.
  destruct (has_participant (Participant.id p) old) eqn:E.
  - left. now apply has_participant_In.
  - right. apply List.in_map, List.filter_In. now rewrite E.
Qed.

(** ** Idempotence of the handler *)

Lemma handlePeerData_twice from data st :
  handlePeerData from data (handlePeerData from data st)
  = handlePeerData from data st.
Proof.
  destruct data as [i u|ms|ps|m|ty]; cbn [handlePeerData].
  - destruct (has_participant i (participants st)) eqn:E; cbn [negb].
    + now rewrite E.
    + cbn [participants set_participants].
      assert (has_participant i (participants st ++ [Participant.mk i u true]) = true) as ->.
      { apply has_participant_In. rewrite List.map_app, List.in_app_iff.
        right. now left. }
      reflexivity.
  - cbn [messages set_messages].
    set (newMessages :=
           List.filter (fun msg => negb (has_message (Message.id msg) (messages st))) ms).
    rewrite (fresh_messages_absorbed (messages st) ms
               (sort_by_timestamp (messages st ++ newMessages))).
    + rewrite List.app_nil_r.
      rewrite (sort_by_timestamp_fixpoint _ (sort_by_timestamp_sorted _)).
      reflexivity.
    + intros i. apply sort_by_timestamp_ids.
  - cbn [participants set_participants].
    rewrite fresh_participants_absorbed, List.app_nil_r. reflexivity.
  - destruct (has_message (Message.id m) (messages st)) eqn:E; cbn [negb].
    + now rewrite E.
    + cbn [messages set_messages].
      assert (has_message (Message.id m)
                (sort_by_timestamp (messages st ++ [m])) = true) as ->.
      { apply has_message_In, sort_by_timestamp_ids.
        rewrite List.map_app, List.in_app_iff. right. now left. }
      reflexivity.
  - reflexivity.
Qed.

(** C1. For every local state and every frame of kind USER_INFO,
    INIT_MESSAGES, INIT_PARTICIPANTS or NEW_MESSAGE (and also for a frame of
    unknown kind), handling the frame twice in succession leaves the same
    message log and the same roster as handling it once. *)
Theorem handlePeerData_idempotent (from : string) (data : Frame) (st : State) :
  messages (handlePeerData from data (handlePeerData from data st))
    = messages (handlePeerData from data st)
  /\ participants (handlePeerData from data (handlePeerData from data st))
    = participants (handlePeerData from data st).
Proof. now rewrite handlePeerData_twice. Qed.

(** ** Backfill merge *)

Lemma NoDup_map_filter {A B} (g : A -> B) (f : A -> bool) l :
  List.NoDup (List.map g l) -> List.NoDup (List.map g (List.filter f l)).
Proof.
  induction l as [|x l IH]; simpl; intros H; [constructor|].
  inversion H as [|? ? Hx Hl]; subst.
  destruct (f x); simpl; [constructor|]; auto.
  intros Hin. apply Hx.
  apply List.in_map_iff in Hin as [y [Hy Hin]].
  apply List.filter_In in Hin as [Hin _].
  apply List.in_map_iff. eauto.
Qed.

Lemma merged_ids_NoDup (old data : list Message.t) :
  List.NoDup (List.map Message.id old) ->
  List.NoDup (List.map Message.id data) ->
  List.NoDup
    (List.map Message.id
       (old ++ List.filter (fun msg => negb (has_message (Message.id msg) old)) data)).
Proof.
  intros Hold Hdata. rewrite List.map_app.
  apply List.NoDup_app; [exact Hold | now apply NoDup_map_filter |].
  intros i Hi Hnew.
  apply List.in_map_iff in Hnew as [m [<- Hm]].
  apply List.filter_In in Hm as [_ Hm].
  apply negb_true_iff in Hm.
  apply has_message_In in Hi. congruence.
Qed.

(** C2. For two logs A (local) and B (payload of an INIT_MESSAGES frame),
    each with pairwise distinct ids, the log after the handler has as ids
    exactly the ids of A together with the ids of B, is in non-decreasing
    timestamp order, keeps entries of equal timestamp in insertion order
    (A first, then the new entries of B in payload order), and has pairwise
    distinct ids again. *)
Theorem init_messages_merge (from : string) (st : State) (B : list Message.t) :
  List.NoDup (List.map Message.id (messages st)) ->
  List.NoDup (List.map Message.id B) ->
  let A := messages st in
  let R := messages (handlePeerData from (INIT_MESSAGES B) st) in
  (forall i, In i (List.map Message.id R) <->
             In i (List.map Message.id A) \/ In i (List.map Message.id B))
  /\ StronglySorted ts_le R
  /\ (forall t,
        stamped t R =
        stamped t (A ++ List.filter
                          (fun msg => negb (has_message (Message.id msg) A)) B))
  /\ List.NoDup (List.map Message.id R).
Proof.
  intros HA HB A R. subst A R. cbn [handlePeerData messages set_messages].
  repeat split.
  - rewrite sort_by_timestamp_ids, List.map_app, List.in_app_iff.
    intros [H|H]; [now left|right].
    apply List.in_map_iff in H as [m [<- Hm]].
    apply List.filter_In in Hm as [Hm _]. now apply List.in_map.
  - rewrite sort_by_timestamp_ids, List.map_app, List.in_app_iff.
    intros [H|H]; [now left|].
    destruct (has_message i (messages st)) eqn:E.
    + left. now apply has_message_In.
    + right. apply List.in_map_iff in H as [m [<- Hm]].
      apply List.in_map, List.filter_In. now rewrite E.
  - apply sort_by_timestamp_sorted.
  - intros t. apply sort_by_timestamp_stable.
  - eapply Permutation_NoDup.
    + apply Permutation_map. symmetry. apply sort_by_timestamp_perm.
    + now apply merged_ids_NoDup.
Qed.

(** The merge of a one-entry log with a two-entry payload that repeats it. *)
Lemma init_messages_merge_witness :
  let st := set_messages [hello_from_J] false anchor in
  let B := [Message.mk "J-5" "bob" "J" "early" 5; hello_from_J] in
  List.NoDup (List.map Message.id (messages st))
  /\ List.NoDup (List.map Message.id B)
  /\ StronglySorted ts_le (messages (handlePeerData "J" (INIT_MESSAGES B) st))
  /\ List.NoDup
       (List.map Message.id (messages (handlePeerData "J" (INIT_MESSAGES B) st))).
Proof.
  cbn zeta.
  assert (List.NoDup (List.map Message.id [hello_from_J])) as HA.
  { cbn. repeat constructor. cbn. tauto. }
  assert (List.NoDup
            (List.map Message.id
               [Message.mk "J-5" "bob" "J" "early" 5; hello_from_J])) as HB.
  { cbn. repeat constructor; cbn; intuition discriminate. }
  split; [exact HA|]. split; [exact HB|].
  pose proof (init_messages_merge "J" (set_messages [hello_from_J] false anchor)
                [Message.mk "J-5" "bob" "J" "early" 5; hello_from_J] HA HB)
    as [_ [Hsorted [_ Hnodup]]].
  split; [exact Hsorted | exact Hnodup].
Defined.

(** ** Channel close *)

Lemma findIndex_Some i ps n :
  findIndex i ps = Some n ->
  exists q, ps !! n = Some q /\ Participant.id q = i
            /\ forall j q', (j < n)%nat -> ps !! j = Some q' -> Participant.id q' <> i.
Proof.
  revert n. induction ps as [|p ps IH]; intros n; cbn [findIndex]; [discriminate|].
  destruct (String.eqb_spec (Participant.id p) i) as [E|E].
  - intros [= <-]. exists p. repeat split; auto. intros j q' Hj. lia.
  - destruct (findIndex i ps) as [k|]; [|discriminate].
    intros [= <-]. destruct (IH k eq_refl) as [q [H1 [H2 H3]]].
    exists q. repeat split; auto.
    intros [|j] q' Hj; cbn.
    + intros [= <-]. exact E.
    + apply H3. lia.
Qed.

Lemma findIndex_None i ps :
  findIndex i ps = None <-> ~ In i (List.map Participant.id ps).
Proof.
  induction ps as [|p ps IH]; cbn [findIndex List.map]; [simpl; tauto|].
  destruct (String.eqb_spec (Participant.id p) i) as [E|E].
  - split; [discriminate|]. intros H. exfalso. apply H. now left.
  - destruct (findIndex i ps); cbn.
    + split; [discriminate|]. intros H. exfalso.
      assert (Some n = None) by (apply IH; tauto). discriminate.
    + split; [|reflexivity]. intros _ [H|H]; [contradiction|].
      now apply IH in H.
Qed.

Lemma map_insert_same {A B} (g : A -> B) (l : list A) n x y :
  l !! n = Some x -> g y = g x -> List.map g (<[n := y]> l) = List.map g l.
Proof.
  revert n. induction l as [|a l IH]; intros [|n]; cbn; try discriminate.
  - intros [= ->] ->. reflexivity.
  - intros H E. f_equal. now apply IH.
Qed.

Lemma lookup_map_Some {A B} (g : A -> B) (l : list A) n x :
  l !! n = Some x -> List.map g l !! n = Some (g x).
Proof.
  revert n. induction l as [|a l IH]; intros [|n]; cbn; try discriminate.
  - now intros [= ->].
  - apply IH.
Qed.

(** The roster after [onConnClose], entry by entry. *)
Lemma onConnClose_participants conn st :
  participants (onConnClose conn st) =
  match findIndex (Conn.peer conn) (participants st) with
  | Some n => alter Participant.disconnect n (participants st)
  | None => participants st
  end.
Proof.
  unfold onConnClose. cbn [participants set_connections].
  destruct (findIndex (Conn.peer conn) (participants st)) as [n|] eqn:E;
    [|reflexivity].
  destruct (findIndex_Some _ _ _ E) as [q [Hq _]]. rewrite Hq.
  cbn [participants set_participants set_connections].
  clear E. revert n Hq. induction (participants st) as [|a l IH]; intros [|n] Hq;
    cbn in *; try discriminate.
  - now injection Hq as ->.
  - f_equal. now apply IH.
Qed.

(** C4. On the close event of the channel to peer address [p]: the entry
    under [p] leaves the connection set and no other entry changes; the
    roster keeps its length, its ids and its usernames, so no entry is
    removed; if an entry with id [p] exists, the first such entry gets
    [isConnected = false]; every other roster entry is unchanged; and so
    are the message log and the session clock. *)
Theorem close_event_effect (conn : Conn.t) (st : State) :
  let p := Conn.peer conn in
  let st' := onConnClose conn st in
  connections st' !! p = None
  /\ (forall k, k <> p -> connections st' !! k = connections st !! k)
  /\ List.map Participant.id (participants st')
     = List.map Participant.id (participants st)
  /\ List.map Participant.username (participants st')
     = List.map Participant.username (participants st)
  /\ (In p (List.map Participant.id (participants st)) ->
      exists n q,
        findIndex p (participants st) = Some n
        /\ participants st !! n = Some q
        /\ Participant.id q = p
        /\ participants st' !! n = Some (Participant.disconnect q)
        /\ forall j, j <> n -> participants st' !! j = participants st !! j)
  /\ (forall j q, participants st !! j = Some q -> Participant.id q <> p ->
                  participants st' !! j = Some q)
  /\ (List.NoDup (List.map Participant.id (participants st)) ->
      forall q', In q' (participants st') -> Participant.id q' = p ->
                 Participant.isConnected q' = false)
  /\ messages st' = messages st
  /\ lastActivityTime st' = lastActivityTime st.
Proof.
  intros p st'.
  assert (connections st' = delete p (connections st)) as Hc.
  { subst st' p. unfold onConnClose. cbn [participants set_connections].
    destruct (findIndex _ _); [|reflexivity].
    destruct (_ !! _); reflexivity. }
  assert (messages st' = messages st /\ lastActivityTime st' = lastActivityTime st)
    as [Hm Ht].
  { subst st' p. unfold onConnClose. cbn [participants set_connections].
    destruct (findIndex _ _); [|split; reflexivity].
    destruct (_ !! _); split; reflexivity. }
  pose proof (onConnClose_participants conn st) as Hp. fold p st' in Hp.
  split; [rewrite Hc; apply lookup_delete_eq|].
  split; [intros k Hk; rewrite Hc; now apply lookup_delete_ne|].
  destruct (findIndex p (participants st)) as [n|] eqn:E.
  - destruct (findIndex_Some _ _ _ E) as [q [Hq [Hid Hfirst]]].
    assert (participants st' = <[n := Participant.disconnect q]> (participants st)) as Hi.
    { rewrite Hp. clear -Hq. revert n Hq.
      induction (participants st) as [|a l IH]; intros [|n] Hq; cbn in *;
        try discriminate.
      - now injection Hq as ->.
      - f_equal. now apply IH. }
    assert (n < length (participants st))%nat as Hn by (eapply lookup_lt_Some; eauto).
    repeat split; auto.
    + rewrite Hi. now apply map_insert_same with (x := q).
    + rewrite Hi. now apply map_insert_same with (x := q).
    + intros _. exists n, q. repeat split; auto.
      * rewrite Hi. now apply list_lookup_insert_eq.
      * intros j Hj. rewrite Hi. now apply list_lookup_insert_ne.
    + intros j q0 Hj Hne. rewrite Hi.
      rewrite list_lookup_insert_ne; [exact Hj|]. congruence.
    + intros Hnd q' Hin Hq'. rewrite Hi in Hin.
      apply list_elem_of_In, list_elem_of_lookup in Hin as [j Hj].
      destruct (decide (j = n)) as [->|Hjn].
      * rewrite list_lookup_insert_eq in Hj by exact Hn. now injection Hj as <-.
      * rewrite list_lookup_insert_ne in Hj by congruence.
        exfalso. apply Hjn.
        apply (NoDup_lookup (List.map Participant.id (participants st)) j n p);
          [now apply NoDup_ListNoDup | |].
        -- rewrite <- Hq'. now apply lookup_map_Some.
        -- rewrite <- Hid. now apply lookup_map_Some.
  - apply findIndex_None in E. rewrite Hp.
    repeat split; auto; try contradiction.
    intros Hnd q' Hin Hq'. exfalso. apply E. rewrite <- Hq'. now apply List.in_map.
Qed.

(** ** Idle monitor *)

(** C6. The poll of the idle monitor, scheduled with a period of 60000 ms,
    ends the session exactly when now minus lastActivityTime exceeds the
    fixed threshold of 15 minutes (900000 ms); a poll that does not end the
    session produces no effect and changes no state; and no poll, expiring
    or not, changes lastActivityTime (nor anything else of the state). *)
Theorem timeoutCheck_spec (now : Z) (st : State) :
  timeoutCheckPeriod = 60 * 1000
  /\ sessionTimeout = 15 * 60 * 1000
  /\ (endsSession (snd (timeoutCheck now st)) = true
      <-> now - lastActivityTime st > sessionTimeout)
  /\ (endsSession (snd (timeoutCheck now st)) = false
      -> timeoutCheck now st = (st, []))
  /\ lastActivityTime (fst (timeoutCheck now st)) = lastActivityTime st
  /\ fst (timeoutCheck now st) = st.
Proof.
  unfold timeoutCheck.
  destruct (Z.ltb_spec sessionTimeout (now - lastActivityTime st)) as [H|H];
    cbn; repeat split; auto; try lia; try discriminate.
Qed.

(** ** Guard of the local send *)

Lemma trimStart_whitespace_only s : whitespace_only s = true -> trimStart s = "".
Proof.
  induction s as [|c s IH]; cbn; [reflexivity|].
  destruct (is_whitespace c); cbn; [exact IH | discriminate].
Qed.

Lemma trimEnd_empty s : trimEnd s = "" -> whitespace_only s = true.
Proof.
  induction s as [|c s IH]; cbn; [reflexivity|].
  destruct (trimEnd s); [|discriminate].
  destruct (is_whitespace c); [intros _; now apply IH | discriminate].
Qed.

Lemma trimStart_keeps_rest s :
  whitespace_only (trimStart s) = true -> whitespace_only s = true.
Proof.
  induction s as [|c s IH]; cbn; [reflexivity|].
  destruct (is_whitespace c) eqn:E; cbn; [exact IH|].
  now rewrite E.
Qed.

(** [trim] returns the empty string exactly on the strings made of white
    space only (the empty string among them). *)
Lemma trim_empty_iff s : trim s = "" <-> whitespace_only s = true.
Proof.
  unfold trim. split.
  - intros H. now apply trimStart_keeps_rest, trimEnd_empty.
  - intros H. now rewrite trimStart_whitespace_only.
Qed.

(** C10. When the draft is empty or made of white space only, or the local
    peer is not connected, [sendMessage] returns the state it was given
    (message log, roster, connection set, lastActivityTime and every other
    field) and calls [send] on no connection. *)
Theorem sendMessage_guard (t_id t_stamp t_act : Z) (st : State) :
  whitespace_only (message st) = true \/ isConnected st = false ->
  sendMessage t_id t_stamp t_act st = (st, []).
Proof.
  intros [H|H]; unfold sendMessage.
  - apply trim_empty_iff in H. now rewrite H.
  - rewrite H. now rewrite orb_true_r.
Qed.

(** A draft of three spaces is not sent. *)
Lemma sendMessage_guard_witness :
  whitespace_only (message (setDraft "   " anchor)) = true
  /\ sendMessage 1000 1000 1001 (setDraft "   " anchor)
     = (setDraft "   " anchor, []).
Proof.
  split; [reflexivity|].
  apply (sendMessage_guard 1000 1000 1001 (setDraft "   " anchor)).
  left. reflexivity.
Defined.

(** ** Ids of local messages *)

Lemma append_cancel_l (p s1 s2 : string) : p +:+ s1 = p +:+ s2 -> s1 = s2.
Proof.
  induction p as [|c p IH]; cbn; [auto|]. intros [= H]. now apply IH.
Qed.

Lemma message_id_inj pid t1 t2 : message_id pid t1 = message_id pid t2 -> t1 = t2.
Proof.
  unfold message_id. intros H.
  apply append_cancel_l in H. cbn in H. injection H as H.
  now apply pretty_Z_inj in H.
Qed.

(** What a successful [sendMessage] does to the state. *)
Lemma sendMessage_accepts t_id t_stamp t_act st :
  truthy (trim (message st)) = true -> isConnected st = true ->
  sendMessage t_id t_stamp t_act st =
  (set_lastActivityTime t_act (watchQueued st)
     (set_message ""
        (set_messages (messages st ++ [newMessage t_id t_stamp st]) (watchQueued st) st)),
   broadcast (NEW_MESSAGE (newMessage t_id t_stamp st)) (connections st)).
Proof. intros H1 H2. unfold sendMessage. now rewrite H1, H2. Qed.

(** Ids of local sends are not always distinct: two sends whose
    [Date.now()] readings coincide create two log entries with one id. *)
Lemma local_ids_collide_same_millisecond : ~ local_ids_distinct.
Proof.
  intros H.
  specialize (H anchor "again" 1000 1000 1000 1000 1000 1000
                eq_refl eq_refl eq_refl).
  vm_compute in H.
  inversion H as [|? ? Hnotin _]; subst. apply Hnotin. now left.
Qed.

(** Where the id scheme does work: two successful local sends in a row
    whose [Date.now()] readings for the id differ append two messages with
    different ids, each id being the local peer address, a dash and the
    time of the send in decimal. *)
Theorem sendMessage_ids_distinct
  (st : State) (draft : string) (t1 s1 a1 t2 s2 a2 : Z) :
  t1 <> t2 ->
  truthy (trim (message st)) = true -> isConnected st = true ->
  truthy (trim draft) = true ->
  let st1 := fst (sendMessage t1 s1 a1 st) in
  let st2 := fst (sendMessage t2 s2 a2 (setDraft draft st1)) in
  exists m1 m2,
    messages st1 = messages st ++ [m1]
    /\ messages st2 = messages st ++ [m1; m2]
    /\ Message.id m1 = peerId st +:+ "-" +:+ pretty t1
    /\ Message.id m2 = peerId st +:+ "-" +:+ pretty t2
    /\ Message.id m1 <> Message.id m2.
Proof.
  intros Ht H1 H2 H3 st1 st2. subst st1 st2.
  rewrite (sendMessage_accepts t1 s1 a1 st H1 H2). cbn [fst].
  rewrite sendMessage_accepts; [|exact H3|exact H2]. cbn [fst].
  eexists _, _. split; [reflexivity|].
  split; [cbn; rewrite <- List.app_assoc; reflexivity|].
  split; [reflexivity|]. split; [reflexivity|].
  cbn. intros E. apply Ht. now apply (message_id_inj (peerId st)).
Qed.

(** Two sends of the anchor, one millisecond apart. *)
Lemma sendMessage_ids_distinct_witness :
  exists m1 m2,
    messages (fst (sendMessage 1000 1000 1000 anchor)) = messages anchor ++ [m1]
    /\ messages
         (fst (sendMessage 1001 1001 1001
                 (setDraft "again" (fst (sendMessage 1000 1000 1000 anchor)))))
       = messages anchor ++ [m1; m2]
    /\ Message.id m1 = "room-1-1000"
    /\ Message.id m2 = "room-1-1001"
    /\ Message.id m1 <> Message.id m2.
Proof.
  assert (1000 <> 1001) as Hne by lia.
  exact (sendMessage_ids_distinct anchor "again" 1000 1000 1000 1001 1001 1001
           Hne eq_refl eq_refl eq_refl).
Defined.

(** C7 at a concrete pair of sends.  The anchor, with an open channel to
    ["J"], sends "hi" and then "again", and both calls read the clock at
    1000: the two messages get the one id "room-1-1000", the log holds two
    entries with that id, both frames go out, and the peer that handles
    them keeps "hi" and drops "again", because it already has that id. *)
Example same_millisecond_sends_collide :
  let sender := fst (step (Incoming (Conn.mk "J" None true)) anchor) in
  let first := sendMessage 1000 1000 1000 sender in
  let second := sendMessage 1000 1000 1000 (setDraft "again" (fst first)) in
  let received := framesTo "J" (snd first ++ snd second) in
  List.map Message.id (messages (fst second)) = ["room-1-1000"; "room-1-1000"]
  /\ List.map Message.content (messages (fst second)) = ["hi"; "again"]
  /\ List.map (fun f => match f with
                        | NEW_MESSAGE m => Message.content m
                        | _ => ""
                        end) received = ["hi"; "again"]
  /\ List.map Message.content (messages (deliver "room-1" received joiner)) = ["hi"].
Proof. cbn zeta. repeat split. Qed.

(** ** Roster retention *)

Lemma onConnClose_roster_keys conn st :
  roster_keys (onConnClose conn st) = roster_keys st.
Proof.
  unfold roster_keys. rewrite onConnClose_participants.
  destruct (findIndex (Conn.peer conn) (participants st)) as [n|] eqn:E;
    [|reflexivity].
  destruct (findIndex_Some _ _ _ E) as [q [Hq _]].
  clear E. revert n Hq.
  induction (participants st) as [|a l IH]; intros [|n] Hq; cbn in *;
    try discriminate.
  - now injection Hq as ->.
  - f_equal. now apply IH.
Qed.

Lemma closeAll_roster_keys snapshot acc :
  roster_keys (fst (closeAll snapshot acc)) = roster_keys (fst acc).
Proof.
  revert acc. induction snapshot as [|[k c] l IH]; intros [st out]; [reflexivity|].
  cbn [closeAll List.fold_left]. fold (closeAll l). rewrite IH.
  cbn [closeIfOpen]. destruct (Conn.open c); [|reflexivity].
  cbn [fst]. now rewrite onConnClose_roster_keys.
Qed.

Lemma closeTracked_roster_keys tracked st :
  roster_keys (closeTracked tracked st) = roster_keys st.
Proof.
  revert st. induction tracked as [|c l IH]; intros st; [reflexivity|].
  cbn [closeTracked List.fold_left]. fold (closeTracked l). rewrite IH.
  destruct (Conn.open c); [apply onConnClose_roster_keys | reflexivity].
Qed.

Lemma destroyPeer_roster_keys acc :
  roster_keys (fst (destroyPeer acc)) = roster_keys (fst acc).
Proof.
  destruct acc as [st out]. cbn [destroyPeer fst].
  destruct (peer st) as [[[|] tracked]|]; cbn [negb Peer.destroyed fst]; try reflexivity.
  apply (closeTracked_roster_keys tracked st).
Qed.

Lemma handleDisconnect_roster_keys st :
  roster_keys (fst (handleDisconnect st)) = roster_keys st.
Proof.
  unfold handleDisconnect. rewrite destroyPeer_roster_keys.
  apply (closeAll_roster_keys _ (st, [])).
Qed.

Lemma joinRoom_participants st :
  participants (fst (joinRoom st)) = participants st.
Proof.
  unfold joinRoom. destruct (negb (isRoomCreator st)); [|reflexivity].
  destruct (peer_connect _ _ _); reflexivity.
Qed.

Lemma step_roster_keys ev st :
  exists added, roster_keys (fst (step ev st)) = roster_keys st ++ added.
Proof.
  destruct ev as [id|conn|conn|conn data|conn|text|t1 t2 t3|now|now| |];
    cbn [step fst].
  - exists [(id, username st)]. unfold onPeerOpen.
    match goal with |- context [if ?b then _ else _] => destruct b end.
    + unfold roster_keys. rewrite joinRoom_participants. cbn [participants].
      now rewrite List.map_app.
    + unfold roster_keys. cbn [fst participants]. now rewrite List.map_app.
  - exists []. now rewrite List.app_nil_r.
  - exists []. rewrite List.app_nil_r. unfold onConnOpen.
    destruct (is_join_request conn); reflexivity.
  - unfold onConnData. destruct data as [i u|ms|ps|m|ty]; cbn [handlePeerData].
    + destruct (negb _).
      * exists [(i, u)]. unfold roster_keys. cbn [participants set_participants].
        now rewrite List.map_app.
      * exists []. now rewrite List.app_nil_r.
    + exists []. now rewrite List.app_nil_r.
    + eexists. unfold roster_keys. cbn [participants set_participants].
      now rewrite List.map_app.
    + exists []. rewrite List.app_nil_r. now destruct (negb _).
    + exists []. now rewrite List.app_nil_r.
  - exists []. now rewrite List.app_nil_r, onConnClose_roster_keys.
  - exists []. now rewrite List.app_nil_r.
  - exists []. rewrite List.app_nil_r. unfold sendMessage.
    destruct (_ || _); reflexivity.
  - exists []. rewrite List.app_nil_r. unfold timeoutCheck.
    destruct (_ <? _)%Z; reflexivity.
  - exists []. rewrite List.app_nil_r. unfold flushWatchers.
    destruct (watchQueued st); reflexivity.
  - exists []. rewrite List.app_nil_r. apply handleDisconnect_roster_keys.
  - exists []. rewrite List.app_nil_r. unfold onBeforeUnmount.
    pose proof (handleDisconnect_roster_keys st) as H.
    destruct (handleDisconnect st) as [st' out]. exact H.
Qed.

(** C8. For every state (reachable or not) and every callback of the view
    (a frame of any kind, a local send, a channel close, teardown, and
    also channel open, incoming channel, the poll, the watcher and typing),
    every participant id in the roster before the callback is in the
    roster after it; the entries present before keep their position, id
    and username, and entries are only added at the end. *)
Theorem roster_retention (ev : Event) (st : State) :
  (forall i, In i (List.map Participant.id (participants st)) ->
             In i (List.map Participant.id (participants (fst (step ev st)))))
  /\ exists added,
       roster_keys (fst (step ev st)) = roster_keys st ++ added.
Proof.
  pose proof (step_roster_keys ev st) as [added H].
  split; [|now exists added].
  intros i Hi.
  assert (forall s, List.map Participant.id (participants s)
                    = List.map fst (roster_keys s)) as Hk.
  { intros s. unfold roster_keys. rewrite List.map_map. reflexivity. }
  rewrite Hk in *. rewrite H, List.map_app, List.in_app_iff. now left.
Qed.

(** ** Teardown *)

Lemma closeAll_effects snapshot st out :
  snd (closeAll snapshot (st, out)) = out ++ closeCalls snapshot.
Proof.
  revert st out. induction snapshot as [|[k c] l IH]; intros st out.
  - cbn. now rewrite List.app_nil_r.
  - cbn [closeAll List.fold_left]. fold (closeAll l).
    unfold closeCalls. cbn [closeIfOpen List.filter snd].
    destruct (Conn.open c).
    + rewrite IH. cbn [List.map snd]. now rewrite <- List.app_assoc.
    + apply IH.
Qed.

Lemma onConnClose_peer conn st : peer (onConnClose conn st) = peer st.
Proof.
  unfold onConnClose. cbn [participants set_connections].
  destruct (findIndex _ _); [|reflexivity].
  destruct (_ !! _); reflexivity.
Qed.

Lemma untrack_conn_livePeer conn st : livePeer (untrack_conn conn st) = livePeer st.
Proof. unfold livePeer. cbn. now destruct (peer st). Qed.

Lemma closeAll_livePeer snapshot acc :
  livePeer (fst (closeAll snapshot acc)) = livePeer (fst acc).
Proof.
  revert acc. induction snapshot as [|[k c] l IH]; intros [st out]; [reflexivity|].
  cbn [closeAll List.fold_left]. fold (closeAll l). rewrite IH.
  cbn [closeIfOpen]. destruct (Conn.open c); [|reflexivity].
  cbn [fst].
  transitivity
    (livePeer (untrack_conn c (set_connections (alter Conn.closed k (connections st)) st))).
  - unfold livePeer. now rewrite onConnClose_peer.
  - now rewrite untrack_conn_livePeer.
Qed.

Lemma onConnClose_connections conn st :
  connections (onConnClose conn st) = delete (Conn.peer conn) (connections st).
Proof.
  unfold onConnClose. cbn [participants set_connections].
  destruct (findIndex _ _); [|reflexivity].
  destruct (_ !! _); reflexivity.
Qed.

(** While the loop runs, a connection still in the set is either closed or
    still ahead in the snapshot. *)
Lemma closeAll_closes rest st out :
  (forall k c, connections st !! k = Some c ->
               Conn.open c = false \/ In (k, c) rest) ->
  forall k c, connections (fst (closeAll rest (st, out))) !! k = Some c ->
              Conn.open c = false.
Proof.
  revert st out. induction rest as [|[k0 c0] rest IH]; intros st out Inv k c.
  - cbn. intros H. destruct (Inv k c H) as [?|[]]. assumption.
  - cbn [closeAll List.fold_left]. fold (closeAll rest).
    cbn [closeIfOpen]. destruct (Conn.open c0) eqn:E0.
    + apply IH. clear k c. intros k c.
      rewrite onConnClose_connections.
      cbn [connections untrack_conn set_peer set_connections].
      intros H. apply lookup_delete_Some in H as [_ H].
      destruct (decide (k0 = k)) as [->|Hne].
      * rewrite lookup_alter_eq in H.
        destruct (connections st !! k); [|discriminate].
        injection H as <-. now left.
      * rewrite lookup_alter_ne in H by exact Hne.
        destruct (Inv k c H) as [?|[[= ? ?]|?]]; [now left|congruence|now right].
    + apply IH. clear k c. intros k c H.
      destruct (Inv k c H) as [?|[[= <- <-]|?]]; [now left|now left|now right].
Qed.

Lemma closeAll_noop snapshot acc :
  (forall kc, In kc snapshot -> Conn.open (snd kc) = false) ->
  closeAll snapshot acc = acc.
Proof.
  revert acc. induction snapshot as [|[k c] l IH]; intros [st out] H; [reflexivity|].
  cbn [closeAll List.fold_left]. fold (closeAll l).
  pose proof (H (k, c) (or_introl eq_refl)) as Hc. cbn [snd] in Hc.
  cbn [closeIfOpen]. rewrite Hc.
  apply IH. intros kc Hkc. apply H. now right.
Qed.

(** The close handlers [destroy()] runs only take entries out of the set. *)
Lemma closeTracked_connections tracked st k c :
  connections (closeTracked tracked st) !! k = Some c ->
  connections st !! k = Some c.
Proof.
  revert st. induction tracked as [|t l IH]; intros st; [auto|].
  cbn [closeTracked List.fold_left]. fold (closeTracked l).
  intros H. apply IH in H. destruct (Conn.open t); [|exact H].
  rewrite onConnClose_connections in H.
  now apply lookup_delete_Some in H as [_ H].
Qed.

Lemma destroyPeer_connections_kept acc k c :
  connections (fst (destroyPeer acc)) !! k = Some c ->
  connections (fst acc) !! k = Some c.
Proof.
  destruct acc as [st out]. cbn [destroyPeer fst].
  destruct (peer st) as [[[|] tracked]|]; cbn [negb Peer.destroyed fst]; auto.
  cbn [connections set_peer]. apply closeTracked_connections.
Qed.

Lemma handleDisconnect_all_closed st k c :
  connections (fst (handleDisconnect st)) !! k = Some c -> Conn.open c = false.
Proof.
  unfold handleDisconnect. intros H. apply destroyPeer_connections_kept in H.
  revert H. apply closeAll_closes. intros k' c' H. right.
  apply list_elem_of_In, elem_of_map_to_list. exact H.
Qed.

Lemma handleDisconnect_livePeer st : livePeer (fst (handleDisconnect st)) = false.
Proof.
  unfold handleDisconnect.
  destruct (closeAll (map_to_list (connections st)) (st, [])) as [st1 out1].
  unfold livePeer, destroyPeer.
  destruct (peer st1) as [[[|] tracked]|] eqn:E; cbn; rewrite ?E; reflexivity.
Qed.

Lemma handleDisconnect_effects st :
  snd (handleDisconnect st) =
  closeCalls (map_to_list (connections st))
  ++ (if livePeer st then [PeerDestroy] else []).
Proof.
  unfold handleDisconnect.
  pose proof (closeAll_livePeer (map_to_list (connections st)) (st, [])) as Hp.
  pose proof (closeAll_effects (map_to_list (connections st)) st []) as He.
  destruct (closeAll (map_to_list (connections st)) (st, [])) as [st1 out1].
  cbn [fst snd] in *. subst out1. rewrite <- Hp. unfold livePeer, destroyPeer.
  destruct (peer st1) as [[[|] tracked]|]; cbn; now rewrite ?List.app_nil_r.
Qed.

Lemma handleDisconnect_again st :
  handleDisconnect (fst (handleDisconnect st)) = (fst (handleDisconnect st), []).
Proof.
  pose proof (handleDisconnect_all_closed st) as Hc.
  pose proof (handleDisconnect_livePeer st) as Hl.
  destruct (handleDisconnect st) as [st1 out1]. cbn [fst] in *.
  unfold handleDisconnect. rewrite closeAll_noop.
  - unfold livePeer in Hl. unfold destroyPeer.
    destruct (peer st1) as [[[|] tracked]|]; try reflexivity; discriminate.
  - intros [k c] H. apply list_elem_of_In, elem_of_map_to_list in H.
    exact (Hc k c H).
Qed.

Lemma count_destroy_app a b :
  count_destroy (a ++ b) = (count_destroy a + count_destroy b)%nat.
Proof. unfold count_destroy. now rewrite List.filter_app, List.length_app. Qed.

Lemma count_destroy_closeCalls l : count_destroy (closeCalls l) = 0%nat.
Proof.
  unfold count_destroy, closeCalls.
  induction (List.filter _ l) as [|x xs IH]; [reflexivity|exact IH].
Qed.

(** With every connection stored under its own peer address, as
    [handleConnection] stores it, one run closes no address twice. *)
Lemma count_close_closeCalls (cs : gmap string Conn.t) p :
  (forall k c, cs !! k = Some c -> Conn.peer c = k) ->
  (count_close p (closeCalls (map_to_list cs)) <= 1)%nat.
Proof.
  intros Hwf.
  pose proof (NoDup_fst_map_to_list cs) as Hnd.
  assert (forall kc, In kc (map_to_list cs) -> Conn.peer (snd kc) = fst kc) as Hk.
  { intros [k c] H. apply list_elem_of_In, elem_of_map_to_list in H.
    now apply Hwf. }
  induction (map_to_list cs) as [|[k c] l IH]; [cbn; lia|].
  apply NoDup_cons in Hnd as [Hk0 Hnd]. cbn [fmap list_fmap fst] in Hk0, Hnd.
  specialize (IH Hnd (fun kc H => Hk kc (or_intror H))).
  unfold closeCalls, count_close in *. cbn [List.filter snd].
  destruct (Conn.open c); [|exact IH].
  cbn [List.map List.filter snd].
  destruct (String.eqb_spec (Conn.peer c) p) as [Ep|Ep]; [|exact IH].
  cbn [length].
  enough (List.filter
            (fun e => match e with ConnClose q => String.eqb q p | _ => false end)
            (List.map (fun kc : string * Conn.t => ConnClose (Conn.peer (snd kc)))
               (List.filter (fun kc : string * Conn.t => Conn.open (snd kc)) l)) = [])
    as -> by (cbn; lia).
  apply filter_none. intros e He.
  apply List.in_map_iff in He as [[k' c'] [<- Hin]].
  apply List.filter_In in Hin as [Hin _]. cbn [snd].
  apply String.eqb_neq. intros Eq.
  pose proof (Hk (k', c') (or_intror Hin)) as Hk'. cbn in Hk'.
  pose proof (Hk (k, c) (or_introl eq_refl)) as Hk1. cbn in Hk1.
  apply Hk0. apply list_elem_of_fmap. exists (k', c'). split.
  - cbn. congruence.
  - now apply list_elem_of_In.
Qed.

(** C9. Teardown is idempotent.  After one run of [handleDisconnect] a
    second run changes nothing and calls nothing; over both runs together
    [close()] is called once on each connection that was open and on no
    other (so at most once per peer address when connections are stored
    under their address), and [destroy()] is called exactly once when the
    peer object was live, never otherwise.  The same holds when the first
    run comes from the page-unload listener and the second from leaving
    the route: the second then only clears the interval and removes the
    listener. *)
Theorem handleDisconnect_idempotent (st : State) :
  let st1 := fst (handleDisconnect st) in
  let out1 := snd (handleDisconnect st) in
  let out2 := snd (handleDisconnect st1) in
  handleDisconnect st1 = (st1, [])
  /\ out1 ++ out2
     = closeCalls (map_to_list (connections st))
       ++ (if livePeer st then [PeerDestroy] else [])
  /\ count_destroy (out1 ++ out2) = (if livePeer st then 1 else 0)%nat
  /\ ((forall k c, connections st !! k = Some c -> Conn.peer c = k) ->
      forall p, (count_close p (out1 ++ out2) <= 1)%nat)
  /\ (forall k c, connections st1 !! k = Some c -> Conn.open c = false)
  /\ livePeer st1 = false
  /\ fst (onBeforeUnmount (fst (onBeforeUnload st))) = st1
  /\ count_destroy (snd (onBeforeUnmount (fst (onBeforeUnload st)))) = 0%nat
  /\ forall p, count_close p (snd (onBeforeUnmount (fst (onBeforeUnload st)))) = 0%nat.
Proof.
  intros st1 out1 out2.
  pose proof (handleDisconnect_again st) as Hagain. fold st1 in Hagain.
  assert (out2 = []) as Hout2 by (subst out2; now rewrite Hagain).
  assert (out1 ++ out2 = closeCalls (map_to_list (connections st))
                         ++ (if livePeer st then [PeerDestroy] else [])) as Hout.
  { rewrite Hout2, List.app_nil_r. apply handleDisconnect_effects. }
  split; [exact Hagain|]. split; [exact Hout|].
  split.
  { rewrite Hout, count_destroy_app, count_destroy_closeCalls.
    now destruct (livePeer st). }
  split.
  { intros Hwf p. rewrite Hout.
    pose proof (count_close_closeCalls (connections st) p Hwf) as H.
    unfold count_close in *. rewrite List.filter_app, List.length_app.
    destruct (livePeer st); cbn; lia. }
  split; [apply handleDisconnect_all_closed|].
  split; [apply handleDisconnect_livePeer|].
  unfold onBeforeUnload, onBeforeUnmount. fold st1. rewrite Hagain.
  repeat split.
  - cbn. now destruct (timeoutCheckInterval st1) as [h|]; [destruct (h =? 0)%Z|].
  - intros p. cbn.
    now destruct (timeoutCheckInterval st1) as [h|]; [destruct (h =? 0)%Z|].
Qed.

(** ** Join handshake *)

Lemma onConnOpen_join_request conn st :
  is_join_request conn = true ->
  snd (onConnOpen conn st) =
  [Send (Conn.peer conn) (USER_INFO (peerId st) (username st));
   Send (Conn.peer conn) (INIT_MESSAGES (messages st));
   Send (Conn.peer conn) (INIT_PARTICIPANTS (participants st))].
Proof. intros H. unfold onConnOpen. now rewrite H. Qed.

(** The connection a joiner dials is a join request on the joiner's own
    side as well. *)
Lemma joinRoom_registers_join_request st :
  isRoomCreator st = false -> livePeer st = true ->
  exists conn,
    connections (fst (joinRoom st)) !! roomId st = Some conn
    /\ Conn.peer conn = roomId st
    /\ is_join_request conn = true.
Proof.
  intros Hc Hl. unfold joinRoom, livePeer, peer_connect in *. rewrite Hc. cbn [negb].
  destruct (peer st) as [[[|]]|]; try discriminate. cbn.
  eexists. split; [apply lookup_insert_eq|]. split; reflexivity.
Qed.

(** On every join-request channel both ends send the backfill: the joiner
    [j] when its connection to the room opens, and the dialed peer [a]
    when the connection it accepted opens. *)
Lemma join_request_backfill_both_ends (j a : State) :
  isRoomCreator j = false -> livePeer j = true ->
  exists cj,
    connections (fst (joinRoom j)) !! roomId j = Some cj
    /\ sendsBackfill (roomId j) (snd (onConnOpen cj (fst (joinRoom j)))) = true
    /\ let ca := incoming (peerId j) (Conn.metadata cj) in
       sendsBackfill (peerId j) (snd (onConnOpen ca (handleConnection ca a))) = true.
Proof.
  intros Hc Hl.
  destruct (joinRoom_registers_join_request j Hc Hl) as [cj [Hcj [Hp Hj]]].
  exists cj. split; [exact Hcj|]. split.
  - rewrite (onConnOpen_join_request cj _ Hj), Hp. unfold sendsBackfill. cbn.
    now rewrite String.eqb_refl.
  - cbn zeta. rewrite onConnOpen_join_request by exact Hj.
    unfold sendsBackfill. cbn. now rewrite String.eqb_refl.
Qed.

(** C3 at a concrete handshake.  The joiner ["J"] dials the anchor
    ["room-1"]; when the channel opens, the dialed peer sends USER_INFO and
    both backfill frames, and so does the joiner: both endpoints send
    INIT_MESSAGES and INIT_PARTICIPANTS. *)
Example joiner_sends_backfill_too :
  let j1 := fst (onPeerOpen "J" joiner) in
  snd (onPeerOpen "J" joiner) = [PeerConnect "room-1" (Metadata.mk "bob" true)]
  /\ exists cj,
       connections j1 !! "room-1" = Some cj
       /\ let ca := incoming "J" (Conn.metadata cj) in
          snd (onConnOpen ca (handleConnection ca anchor)) =
            [Send "J" (USER_INFO "room-1" "alice");
             Send "J" (INIT_MESSAGES []);
             Send "J" (INIT_PARTICIPANTS [Participant.mk "room-1" "alice" true])]
          /\ snd (onConnOpen cj j1) =
            [Send "room-1" (USER_INFO "J" "bob");
             Send "room-1" (INIT_MESSAGES []);
             Send "room-1" (INIT_PARTICIPANTS [Participant.mk "J" "bob" true])]
          /\ sendsBackfill "J" (snd (onConnOpen ca (handleConnection ca anchor))) = true
          /\ sendsBackfill "room-1" (snd (onConnOpen cj j1)) = true.
Proof.
  cbn zeta. split; [reflexivity|].
  exists (Conn.mk "room-1" (Some (Metadata.mk "bob" true)) false).
  split; [now vm_compute|]. repeat split.
Qed.

(** ** Session clock on received messages *)

Lemma new_message_keeps_clock from m now st :
  watchQueued st = false ->
  lastActivityTime (flushWatchers now (handlePeerData from (NEW_MESSAGE m) st))
  = lastActivityTime st.
Proof.
  intros H. cbn [handlePeerData]. unfold flushWatchers.
  destruct (negb _); cbn; now rewrite H.
Qed.

Lemma init_messages_resets_clock from ms now st :
  lastActivityTime (flushWatchers now (handlePeerData from (INIT_MESSAGES ms) st))
  = now.
Proof. reflexivity. Qed.

Lemma sendMessage_resets_clock t_id t_stamp t_act st :
  truthy (trim (message st)) = true -> isConnected st = true ->
  lastActivityTime (fst (sendMessage t_id t_stamp t_act st)) = t_act.
Proof. intros H1 H2. now rewrite sendMessage_accepts. Qed.

(** C5 at a concrete frame.  The anchor, idle since time 0, receives a
    NEW_MESSAGE frame at time 900000: the message enters the log, the
    watcher of [messages] is not queued, and lastActivityTime stays 0, so
    the poll at time 900001 ends the session. *)
Example new_message_does_not_reset_clock :
  let st1 := onConnData (incoming "J" None) (NEW_MESSAGE hello_from_J) anchor in
  let st2 := flushWatchers 900000 st1 in
  messages st2 = [hello_from_J]
  /\ watchQueued st1 = false
  /\ lastActivityTime st2 = 0
  /\ endsSession (snd (timeoutCheck 900001 st2)) = true.
Proof. cbn zeta. repeat split. Qed.

(** * Further properties of the view *)

(** ** The time-left label *)




(** X2. Evaluated at a clock reading that is not before the last
    activity, [getTimeLeft] returns the number of whole minutes left in
    the idle window, clamped at zero: a number between 0 and 15 followed
    by "m". *)
Theorem getTimeLeft_minutes (now : Z) (st : State) :
  lastActivityTime st <= now ->
  exists m,
    getTimeLeft now st = pretty m +:+ "m"
    /\ 0 <= m <= 15
    /\ m * 60000 <= Z.max 0 (sessionTimeout - (now - lastActivityTime st))
       < (m + 1) * 60000.
Proof.
  intros Hnow. unfold getTimeLeft.
  destruct (Z.leb_spec (sessionTimeout - (now - lastActivityTime st)) 0) as [Hle|Hgt].
  - exists 0. split; [reflexivity|]. lia.
  - exists ((sessionTimeout - (now - lastActivityTime st)) / 60000).
    split; [reflexivity|].
    set (left := sessionTimeout - (now - lastActivityTime st)) in *.
    assert (left <= 900000) by (unfold left, sessionTimeout; lia).
    pose proof (Z.div_mod left 60000 ltac:(lia)) as Hdiv.
    pose proof (Z.mod_pos_bound left 60000 ltac:(lia)) as Hmod.
    assert (0 <= left / 60000) by (apply Z.div_pos; lia).
    assert (left / 60000 <= 15).
    { apply Z.div_le_upper_bound; lia. }
    lia.
Qed.

(** The label one second after the last activity. *)
Lemma getTimeLeft_minutes_witness :
  lastActivityTime anchor <= 1000
  /\ exists m, getTimeLeft 1000 anchor = pretty m +:+ "m" /\ 0 <= m <= 15.
Proof.
  assert (lastActivityTime anchor <= 1000) as H by (cbn; lia).
  split; [exact H|].
  destruct (getTimeLeft_minutes 1000 anchor H) as [m [H1 [H2 _]]].
  exists m. split; [exact H1 | exact H2].
Defined.

(** ** The local send, when it goes through *)

Lemma truthy_trim s : truthy (trim s) = true <-> whitespace_only s = false.
Proof.
  pose proof (trim_empty_iff s) as H.
  destruct (trim s) eqn:E; destruct (whitespace_only s); cbn; intuition congruence.
Qed.

Lemma broadcast_In f (cs : gmap string Conn.t) e :
  In e (broadcast f cs) <-> exists k c, cs !! k = Some c /\ e = Send (Conn.peer c) f.
Proof.
  unfold broadcast. rewrite List.in_map_iff. split.
  - intros [[k c] [<- H]]. exists k, c.
    apply list_elem_of_In, elem_of_map_to_list in H. now split.
  - intros [k [c [H ->]]]. exists (k, c). split; [reflexivity|].
    now apply list_elem_of_In, elem_of_map_to_list.
Qed.

(** X3. With a draft that has a visible character and the local peer
    connected, [sendMessage] appends exactly one message at the end of the
    log: its content is the draft as typed (not trimmed), its sender the
    local username, its senderId the local address, its timestamp the
    second clock reading.  The draft is emptied, lastActivityTime becomes
    the third reading, roster and connection set are untouched, and
    [send] is called once per registered connection, open or not, each
    time with the NEW_MESSAGE frame of that message. *)
Theorem sendMessage_effect (t_id t_stamp t_act : Z) (st : State) :
  whitespace_only (message st) = false -> isConnected st = true ->
  let st' := fst (sendMessage t_id t_stamp t_act st) in
  let out := snd (sendMessage t_id t_stamp t_act st) in
  exists m,
    messages st' = messages st ++ [m]
    /\ Message.content m = message st
    /\ Message.sender m = username st
    /\ Message.senderId m = peerId st
    /\ Message.timestamp m = t_stamp
    /\ Message.id m = message_id (peerId st) t_id
    /\ message st' = ""
    /\ lastActivityTime st' = t_act
    /\ participants st' = participants st
    /\ connections st' = connections st
    /\ length out = size (connections st)
    /\ (forall e, In e out <->
          exists k c, connections st !! k = Some c
                      /\ e = Send (Conn.peer c) (NEW_MESSAGE m)).
Proof.
  intros Hd Hc st' out. subst st' out.
  apply truthy_trim in Hd. rewrite (sendMessage_accepts _ _ _ _ Hd Hc).
  exists (newMessage t_id t_stamp st). cbn [fst snd].
  repeat split; try reflexivity.
  - unfold broadcast. rewrite List.length_map. apply length_map_to_list.
  - now apply broadcast_In.
  - now apply broadcast_In.
Qed.

(** The anchor, with one channel that is not yet open, sends its draft. *)
Lemma sendMessage_effect_witness :
  let st := handleConnection (incoming "J" None) anchor in
  whitespace_only (message st) = false
  /\ isConnected st = true
  /\ exists m,
       messages (fst (sendMessage 1000 1000 1001 st)) = messages st ++ [m]
       /\ Message.content m = "hi".
Proof.
  cbn zeta. split; [reflexivity|]. split; [reflexivity|].
  destruct (sendMessage_effect 1000 1000 1001
              (handleConnection (incoming "J" None) anchor) eq_refl eq_refl)
    as [m [H1 [H2 _]]].
  exists m. split; [exact H1 | exact H2].
Defined.

(** X4. A second [sendMessage] right after a first one does nothing,
    whatever the clock reads: either the first one was refused and the
    state is the same, or it went through and emptied the draft. *)
Theorem sendMessage_repeat (t1 s1 a1 t2 s2 a2 : Z) (st : State) :
  sendMessage t2 s2 a2 (fst (sendMessage t1 s1 a1 st))
  = (fst (sendMessage t1 s1 a1 st), []).
Proof.
  destruct (negb (truthy (trim (message st))) || negb (isConnected st)) eqn:E.
  - assert (sendMessage t1 s1 a1 st = (st, [])) as ->
      by (unfold sendMessage; now rewrite E).
    cbn [fst]. unfold sendMessage. now rewrite E.
  - apply orb_false_iff in E as [E1 E2].
    apply negb_false_iff in E1, E2.
    rewrite (sendMessage_accepts t1 s1 a1 st E1 E2). reflexivity.
Qed.

(** X5. A message that went out comes in: for the message [m] a successful
    [sendMessage] creates, every registered connection is sent the frame
    NEW_MESSAGE [m]; a peer that handles this frame has the id of [m] in
    its log afterwards, and [m] itself, once, next to its former entries
    if the id was new to it; and the sender, handed its own frame back,
    changes nothing. *)
Theorem sent_message_round_trip (t_id t_stamp t_act : Z) (st : State) :
  whitespace_only (message st) = false -> isConnected st = true ->
  let m := newMessage t_id t_stamp st in
  let st' := fst (sendMessage t_id t_stamp t_act st) in
  let out := snd (sendMessage t_id t_stamp t_act st) in
  (forall k c, connections st !! k = Some c ->
               In (NEW_MESSAGE m) (framesTo (Conn.peer c) out))
  /\ (forall from r,
        In (Message.id m)
           (List.map Message.id (messages (handlePeerData from (NEW_MESSAGE m) r))))
  /\ (forall from r,
        has_message (Message.id m) (messages r) = false ->
        Permutation (messages (handlePeerData from (NEW_MESSAGE m) r))
                    (m :: messages r))
  /\ (forall from, handlePeerData from (NEW_MESSAGE m) st' = st').
Proof.
  intros Hd Hc m st' out. subst st' out.
  apply truthy_trim in Hd. rewrite (sendMessage_accepts _ _ _ _ Hd Hc).
  cbn [fst snd]. fold m. repeat split.
  - intros k c H. unfold framesTo. apply List.in_flat_map.
    exists (Send (Conn.peer c) (NEW_MESSAGE m)). split.
    + apply broadcast_In. eauto.
    + rewrite String.eqb_refl. now left.
  - intros from r. cbn [handlePeerData].
    destruct (has_message (Message.id m) (messages r)) eqn:E; cbn [negb].
    + now apply has_message_In.
    + cbn [messages set_messages]. apply sort_by_timestamp_ids.
      rewrite List.map_app, List.in_app_iff. right. now left.
  - intros from r E. cbn [handlePeerData]. rewrite E. cbn [negb messages set_messages].
    rewrite sort_by_timestamp_perm. symmetry. apply Permutation_cons_append.
  - intros from. cbn [handlePeerData messages set_messages set_message
                        set_lastActivityTime].
    assert (has_message (Message.id m) (messages st ++ [m]) = true) as ->.
    { apply has_message_In. rewrite List.map_app, List.in_app_iff. right. now left. }
    reflexivity.
Qed.

(** The anchor's message reaches the joiner on the channel between them. *)
Lemma sent_message_round_trip_witness :
  let st := handleConnection (incoming "J" None) anchor in
  whitespace_only (message st) = false
  /\ isConnected st = true
  /\ In (NEW_MESSAGE (newMessage 1000 1000 st))
        (framesTo "J" (snd (sendMessage 1000 1000 1001 st)))
  /\ Permutation
       (messages (handlePeerData "room-1" (NEW_MESSAGE (newMessage 1000 1000 st)) joiner))
       (newMessage 1000 1000 st :: messages joiner).
Proof.
  cbn zeta. split; [reflexivity|]. split; [reflexivity|].
  destruct (sent_message_round_trip 1000 1000 1001
              (handleConnection (incoming "J" None) anchor) eq_refl eq_refl)
    as [H1 [_ [H3 _]]].
  split.
  - apply (H1 "J" (incoming "J" None)). apply lookup_insert_eq.
  - apply (H3 "room-1" joiner). reflexivity.
Defined.

(** X6. A successful [sendMessage] opens a fresh idle window: no poll ends
    the session until more than 15 minutes after its last clock reading,
    and the first poll after that does. *)
Theorem sendMessage_restarts_idle_window (t_id t_stamp t_act now : Z) (st : State) :
  whitespace_only (message st) = false -> isConnected st = true ->
  let st' := fst (sendMessage t_id t_stamp t_act st) in
  endsSession (snd (timeoutCheck now st')) = true <-> now > t_act + sessionTimeout.
Proof.
  intros Hd Hc st'. subst st'.
  apply truthy_trim in Hd. rewrite (sendMessage_accepts _ _ _ _ Hd Hc).
  cbn [fst]. unfold timeoutCheck. cbn [lastActivityTime set_lastActivityTime].
  destruct (Z.ltb_spec sessionTimeout (now - t_act)); cbn; split;
    intros; try lia; try discriminate; reflexivity.
Qed.

(** A send at 1001 and a poll exactly 15 minutes later. *)
Lemma sendMessage_restarts_idle_window_witness :
  whitespace_only (message anchor) = false
  /\ isConnected anchor = true
  /\ (endsSession
        (snd (timeoutCheck 901001 (fst (sendMessage 1000 1000 1001 anchor)))) = true
      <-> 901001 > 1001 + sessionTimeout).
Proof.
  split; [reflexivity|]. split; [reflexivity|].
  exact (sendMessage_restarts_idle_window 1000 1000 1001 901001 anchor
           eq_refl eq_refl).
Defined.

(** ** Order of the log *)

Lemma insert_by_timestamp_least x l :
  List.Forall (ts_le x) l -> insert_by_timestamp x l = x :: l.
Proof.
  destruct l as [|y l]; [reflexivity|]. intros H.
  inversion H as [|? ? Hxy _]; subst. cbn.
  destruct (Z.leb_spec (Message.timestamp x - Message.timestamp y) 0);
    [reflexivity | unfold ts_le in Hxy; lia].
Qed.

Lemma StronglySorted_snoc l m :
  StronglySorted ts_le (l ++ [m])
  <-> StronglySorted ts_le l /\ List.Forall (fun x => ts_le x m) l.
Proof.
  induction l as [|x l IH]; cbn.
  - split; [intros _; split; constructor | intros _; repeat constructor].
  - split.
    + intros H. inversion H as [|? ? Hs Hf]; subst.
      apply IH in Hs as [Hs Hm]. apply List.Forall_app in Hf as [Hf Hxm].
      inversion Hxm; subst. split; constructor; auto.
    + intros [H Hm]. inversion H as [|? ? Hs Hf]; subst.
      inversion Hm as [|? ? Hxm Hm']; subst.
      constructor; [apply IH; now split|].
      apply List.Forall_app. split; [exact Hf | now constructor].
Qed.

(** The place a message takes in a sorted log. *)
Lemma sort_snoc_sorted l m :
  StronglySorted ts_le l ->
  exists l1 l2,
    l = l1 ++ l2
    /\ sort_by_timestamp (l ++ [m]) = l1 ++ m :: l2
    /\ List.Forall (fun x => Message.timestamp x <= Message.timestamp m) l1
    /\ List.Forall (fun x => Message.timestamp m < Message.timestamp x) l2.
Proof.
  induction 1 as [|x l Hs IH Hx].
  - exists [], []. repeat split; constructor.
  - destruct IH as [l1 [l2 [El [Es [H1 H2]]]]].
    cbn [List.app sort_by_timestamp List.fold_right].
    fold (sort_by_timestamp (l ++ [m])). rewrite Es.
    destruct l1 as [|y l1].
    + cbn in El. subst l2. cbn [List.app insert_by_timestamp].
      destruct (Z.leb_spec (Message.timestamp x - Message.timestamp m) 0) as [Hle|Hgt].
      * exists [x], l. repeat split; auto. constructor; [lia|constructor].
      * exists [], (x :: l). rewrite (insert_by_timestamp_least x l Hx).
        repeat split; auto. constructor; [lia|exact H2].
    + exists (x :: y :: l1), l2. subst l.
      inversion Hx as [|? ? Hxy _]; subst.
      inversion H1 as [|? ? Hym _]; subst.
      cbn [List.app insert_by_timestamp].
      destruct (Z.leb_spec (Message.timestamp x - Message.timestamp y) 0) as [Hle|Hgt];
        [|unfold ts_le in Hxy; lia].
      repeat split; auto. constructor; [unfold ts_le in Hxy; lia | exact H1].
Qed.

(** X7. The handler keeps the log ordered: after an INIT_MESSAGES frame,
    and after a NEW_MESSAGE frame whose id is new, the log is in
    non-decreasing timestamp order whatever it was before; after any other
    frame it is ordered if it was. *)
Theorem handlePeerData_sorted (from : string) (st : State) :
  (forall ms,
     StronglySorted ts_le (messages (handlePeerData from (INIT_MESSAGES ms) st)))
  /\ (forall m, has_message (Message.id m) (messages st) = false ->
        StronglySorted ts_le (messages (handlePeerData from (NEW_MESSAGE m) st)))
  /\ (forall data, StronglySorted ts_le (messages st) ->
        StronglySorted ts_le (messages (handlePeerData from data st))).
Proof.
  split; [intros ms; apply sort_by_timestamp_sorted|].
  split.
  - intros m E. cbn [handlePeerData]. rewrite E. apply sort_by_timestamp_sorted.
  - intros [i u|ms|ps|m|ty] H; cbn [handlePeerData].
    + now destruct (negb _).
    + apply sort_by_timestamp_sorted.
    + exact H.
    + destruct (negb _); [apply sort_by_timestamp_sorted | exact H].
    + exact H.
Qed.

(** X8. A NEW_MESSAGE frame with a new id, handled on an ordered log, puts
    its message behind every entry whose timestamp is not later and in
    front of every entry whose timestamp is later; the other entries keep
    their places. *)
Theorem new_message_position (from : string) (m : Message.t) (st : State) :
  StronglySorted ts_le (messages st) ->
  has_message (Message.id m) (messages st) = false ->
  exists l1 l2,
    messages st = l1 ++ l2
    /\ messages (handlePeerData from (NEW_MESSAGE m) st) = l1 ++ m :: l2
    /\ List.Forall (fun x => Message.timestamp x <= Message.timestamp m) l1
    /\ List.Forall (fun x => Message.timestamp m < Message.timestamp x) l2.
Proof.
  intros Hs E. cbn [handlePeerData]. rewrite E. cbn [negb messages set_messages].
  now apply sort_snoc_sorted.
Qed.

(** A message stamped 900000 arrives in a log that holds one stamped
    900000 and one stamped 900005. *)
Lemma new_message_position_witness :
  let later := Message.mk "J-900005" "bob" "J" "later" 900005 in
  let tie := Message.mk "K-900000" "eve" "K" "tie" 900000 in
  let st := set_messages [hello_from_J; later] false anchor in
  StronglySorted ts_le (messages st)
  /\ has_message (Message.id tie) (messages st) = false
  /\ exists l1 l2,
       messages st = l1 ++ l2
       /\ messages (handlePeerData "K" (NEW_MESSAGE tie) st) = l1 ++ tie :: l2.
Proof.
  cbn zeta.
  assert (StronglySorted ts_le
            (messages
               (set_messages
                  [hello_from_J; Message.mk "J-900005" "bob" "J" "later" 900005]
                  false anchor))) as Hs.
  { cbn. repeat constructor; unfold ts_le; cbn; lia. }
  split; [exact Hs|]. split; [reflexivity|].
  destruct (new_message_position "K" (Message.mk "K-900000" "eve" "K" "tie" 900000)
              _ Hs eq_refl) as [l1 [l2 [H1 [H2 _]]]].
  exists l1, l2. split; [exact H1 | exact H2].
Defined.

(** X9. A local message is appended without sorting: after a successful
    [sendMessage] on an ordered log the log is still ordered exactly when
    no entry is stamped later than the new message; otherwise the new
    message stays at the end, behind a later entry, until a received frame
    sorts the log again. *)
Theorem sendMessage_order (t_id t_stamp t_act : Z) (st : State) :
  whitespace_only (message st) = false -> isConnected st = true ->
  StronglySorted ts_le (messages st) ->
  let st' := fst (sendMessage t_id t_stamp t_act st) in
  (StronglySorted ts_le (messages st')
   <-> List.Forall (fun x => Message.timestamp x <= t_stamp) (messages st))
  /\ forall from ms,
       StronglySorted ts_le (messages (handlePeerData from (INIT_MESSAGES ms) st')).
Proof.
  intros Hd Hc Hs st'. subst st'.
  apply truthy_trim in Hd. rewrite (sendMessage_accepts _ _ _ _ Hd Hc).
  cbn [fst messages set_messages set_message set_lastActivityTime].
  split; [|intros from ms; apply sort_by_timestamp_sorted].
  rewrite StronglySorted_snoc. unfold ts_le. cbn [newMessage Message.timestamp].
  tauto.
Qed.

(** The anchor holds a message stamped 900000 and sends at 1000. *)
Lemma sendMessage_order_witness :
  let st := set_messages [hello_from_J] false anchor in
  whitespace_only (message st) = false
  /\ isConnected st = true
  /\ StronglySorted ts_le (messages st)
  /\ ~ StronglySorted ts_le (messages (fst (sendMessage 1000 1000 1000 st))).
Proof.
  cbn zeta.
  assert (StronglySorted ts_le (messages (set_messages [hello_from_J] false anchor)))
    as Hs by (cbn; repeat constructor).
  split; [reflexivity|]. split; [reflexivity|]. split; [exact Hs|].
  destruct (sendMessage_order 1000 1000 1000
              (set_messages [hello_from_J] false anchor) eq_refl eq_refl Hs)
    as [H _].
  intros Hsorted. apply H in Hsorted.
  inversion Hsorted as [|? ? Hle _]; subst. cbn in Hle. lia.
Defined.

(** ** Uniqueness of ids *)

Lemma NoDup_ids_snoc {A} (g : A -> string) (l : list A) (x : A) :
  List.NoDup (List.map g l) -> ~ In (g x) (List.map g l) ->
  List.NoDup (List.map g (l ++ [x])).
Proof.
  intros Hl Hx. rewrite List.map_app. apply List.NoDup_app; auto.
  - cbn. repeat constructor. tauto.
  - intros i Hi [<-|[]]. contradiction.
Qed.

Lemma merged_roster_NoDup (old data : list Participant.t) :
  List.NoDup (List.map Participant.id old) ->
  List.NoDup (List.map Participant.id data) ->
  List.NoDup
    (List.map Participant.id
       (old ++ List.filter
          (fun p => negb (has_participant (Participant.id p) old)) data)).
Proof.
  intros Hold Hdata. rewrite List.map_app.
  apply List.NoDup_app; [exact Hold | now apply NoDup_map_filter |].
  intros i Hi Hnew.
  apply List.in_map_iff in Hnew as [m [<- Hm]].
  apply List.filter_In in Hm as [_ Hm].
  apply negb_true_iff in Hm.
  apply has_participant_In in Hi. congruence.
Qed.

(** X10. The handler keeps ids unique: for every frame whose payload does
    not repeat an id within itself, a log with pairwise distinct ids stays
    so and a roster with pairwise distinct ids stays so. *)
Theorem handlePeerData_unique_ids (from : string) (data : Frame) (st : State) :
  payload_ids_distinct data ->
  (List.NoDup (List.map Message.id (messages st)) ->
   List.NoDup (List.map Message.id (messages (handlePeerData from data st))))
  /\ (List.NoDup (List.map Participant.id (participants st)) ->
      List.NoDup (List.map Participant.id (participants (handlePeerData from data st)))).
Proof.
  destruct data as [i u|ms|ps|m|ty]; cbn [payload_ids_distinct handlePeerData];
    intros Hp; split; intros H.
  - now destruct (negb _).
  - destruct (has_participant i (participants st)) eqn:E; cbn [negb]; [exact H|].
    cbn [participants set_participants].
    apply (NoDup_ids_snoc Participant.id); [exact H|].
    cbn. intros Hin. apply has_participant_In in Hin. congruence.
  - cbn [messages set_messages]. eapply Permutation_NoDup.
    + apply Permutation_map. symmetry. apply sort_by_timestamp_perm.
    + now apply merged_ids_NoDup.
  - exact H.
  - exact H.
  - cbn [participants set_participants]. now apply merged_roster_NoDup.
  - destruct (has_message (Message.id m) (messages st)) eqn:E; cbn [negb]; [exact H|].
    cbn [messages set_messages]. eapply Permutation_NoDup.
    + apply Permutation_map. symmetry. apply sort_by_timestamp_perm.
    + apply (NoDup_ids_snoc Message.id); [exact H|].
      intros Hin. apply has_message_In in Hin. congruence.
  - now destruct (negb _).
  - exact H.
  - exact H.
Qed.

(** A roster backfill that names the anchor again and a newcomer. *)
Lemma handlePeerData_unique_ids_witness :
  let data :=
    INIT_PARTICIPANTS
      [Participant.mk "room-1" "mallory" false; Participant.mk "K" "eve" true] in
  payload_ids_distinct data
  /\ List.NoDup (List.map Participant.id (participants anchor))
  /\ List.NoDup
       (List.map Participant.id (participants (handlePeerData "J" data anchor))).
Proof.
  cbn zeta.
  assert (payload_ids_distinct
            (INIT_PARTICIPANTS
               [Participant.mk "room-1" "mallory" false; Participant.mk "K" "eve" true]))
    as Hp.
  { cbn. repeat constructor; cbn; intuition discriminate. }
  assert (List.NoDup (List.map Participant.id (participants anchor))) as Hr.
  { cbn. repeat constructor. cbn. tauto. }
  split; [exact Hp|]. split; [exact Hr|].
  destruct (handlePeerData_unique_ids "J" _ anchor Hp) as [_ H]. exact (H Hr).
Defined.

(** ** Two peers that exchange their logs *)

Lemma NoDup_map_In_inj {A B} (g : A -> B) (l : list A) x y :
  List.NoDup (List.map g l) -> In x l -> In y l -> g x = g y -> x = y.
Proof.
  induction l as [|a l IH]; cbn; [tauto|].
  intros Hnd Hx Hy E. inversion Hnd as [|? ? Ha Hl]; subst.
  destruct Hx as [<-|Hx], Hy as [<-|Hy]; auto.
  - exfalso. apply Ha. rewrite E. now apply List.in_map.
  - exfalso. apply Ha. rewrite <- E. now apply List.in_map.
Qed.

(** An ordered list with pairwise distinct timestamps is the only ordered
    arrangement of its entries. *)
Lemma sorted_arrangement_unique l1 l2 :
  StronglySorted ts_le l1 -> StronglySorted ts_le l2 ->
  Permutation l1 l2 ->
  List.NoDup (List.map Message.timestamp l1) ->
  l1 = l2.
Proof.
  intros H1. revert l2. induction H1 as [|x l1 Hs1 IH Hx]; intros l2 H2 P Hnd.
  - now apply Permutation_nil in P.
  - destruct l2 as [|y l2]; [now apply Permutation_sym, Permutation_nil in P|].
    inversion H2 as [|? ? Hs2 Hy]; subst.
    assert (x = y) as <-.
    { assert (In y (x :: l1)) as Hyin
        by (eapply Permutation_in; [symmetry; exact P | now left]).
      assert (In x (y :: l2)) as Hxin
        by (eapply Permutation_in; [exact P | now left]).
      apply (NoDup_map_In_inj Message.timestamp (x :: l1)); auto; [now left|].
      destruct Hyin as [->|Hyin]; [reflexivity|].
      destruct Hxin as [->|Hxin]; [reflexivity|].
      rewrite List.Forall_forall in Hx, Hy.
      specialize (Hx y Hyin). specialize (Hy x Hxin). unfold ts_le in *. lia. }
    f_equal. apply IH; auto.
    + now apply Permutation_cons_inv in P.
    + now inversion Hnd.
Qed.

(** X11. Two peers that send each other their whole log end with the same
    log, entry for entry, provided each log has pairwise distinct ids,
    entries that share an id are the same message, and no two messages of
    the union carry the same timestamp. *)
Theorem backfill_converges (p q : string) (sa sb : State) :
  List.NoDup (List.map Message.id (messages sa)) ->
  List.NoDup (List.map Message.id (messages sb)) ->
  (forall a b, In a (messages sa) -> In b (messages sb) ->
               Message.id a = Message.id b -> a = b) ->
  List.NoDup
    (List.map Message.timestamp
       (messages sa ++
        List.filter (fun msg => negb (has_message (Message.id msg) (messages sa)))
          (messages sb))) ->
  messages (handlePeerData p (INIT_MESSAGES (messages sb)) sa)
  = messages (handlePeerData q (INIT_MESSAGES (messages sa)) sb).
Proof.
  intros HA HB Hagree Hts. cbn [handlePeerData messages set_messages].
  set (A := messages sa) in *. set (B := messages sb) in *.
  assert (Permutation
            (A ++ List.filter (fun msg => negb (has_message (Message.id msg) A)) B)
            (B ++ List.filter (fun msg => negb (has_message (Message.id msg) B)) A))
    as P.
  { apply Stdlib.Sorting.Permutation.NoDup_Permutation.
    - eapply List.NoDup_map_inv. now apply merged_ids_NoDup.
    - eapply List.NoDup_map_inv. now apply merged_ids_NoDup.
    - intros x. rewrite !List.in_app_iff, !List.filter_In, !negb_true_iff. split.
      + intros [Hx|[Hx _]]; [|now left].
        destruct (has_message (Message.id x) B) eqn:E; [|now right].
        left. apply has_message_In, List.in_map_iff in E as [b [Eb Hb]].
        now rewrite (Hagree x b Hx Hb (eq_sym Eb)).
      + intros [Hx|[Hx _]]; [|now left].
        destruct (has_message (Message.id x) A) eqn:E; [|now right].
        left. apply has_message_In, List.in_map_iff in E as [a [Ea Ha]].
        now rewrite <- (Hagree a x Ha Hx Ea). }
  apply sorted_arrangement_unique.
  - apply sort_by_timestamp_sorted.
  - apply sort_by_timestamp_sorted.
  - rewrite !sort_by_timestamp_perm. exact P.
  - eapply Permutation_NoDup; [|exact Hts].
    apply Permutation_map. symmetry. apply sort_by_timestamp_perm.
Qed.

(** Two logs that agree on the one message they share. *)
Lemma backfill_converges_witness :
  let early := Message.mk "J-5" "bob" "J" "early" 5 in
  let sa := set_messages [hello_from_J] false anchor in
  let sb := set_messages [early; hello_from_J] false joiner in
  messages (handlePeerData "J" (INIT_MESSAGES (messages sb)) sa)
  = messages (handlePeerData "room-1" (INIT_MESSAGES (messages sa)) sb).
Proof.
  cbn zeta.
  apply (backfill_converges "J" "room-1"
           (set_messages [hello_from_J] false anchor)
           (set_messages [Message.mk "J-5" "bob" "J" "early" 5; hello_from_J]
              false joiner)).
  - cbn. repeat constructor. cbn. tauto.
  - cbn. repeat constructor; cbn; intuition discriminate.
  - cbn. intros a b [<-|[]] [<-|[<-|[]]] E; try reflexivity; discriminate.
  - cbn. repeat constructor; cbn; intuition discriminate.
Defined.

(** ** What no callback undoes *)

Lemma onConnClose_messages conn st : messages (onConnClose conn st) = messages st.
Proof.
  unfold onConnClose. cbn [participants set_connections].
  destruct (findIndex _ _); [|reflexivity].
  destruct (_ !! _); reflexivity.
Qed.

Lemma closeAll_messages snapshot acc :
  messages (fst (closeAll snapshot acc)) = messages (fst acc).
Proof.
  revert acc. induction snapshot as [|[k c] l IH]; intros [st out]; [reflexivity|].
  cbn [closeAll List.fold_left]. fold (closeAll l). rewrite IH.
  cbn [closeIfOpen]. destruct (Conn.open c); [|reflexivity].
  cbn [fst]. now rewrite onConnClose_messages.
Qed.

Lemma closeTracked_messages tracked st :
  messages (closeTracked tracked st) = messages st.
Proof.
  revert st. induction tracked as [|c l IH]; intros st; [reflexivity|].
  cbn [closeTracked List.fold_left]. fold (closeTracked l). rewrite IH.
  destruct (Conn.open c); [apply onConnClose_messages | reflexivity].
Qed.

Lemma handleDisconnect_messages st :
  messages (fst (handleDisconnect st)) = messages st.
Proof.
  unfold handleDisconnect.
  pose proof (closeAll_messages (map_to_list (connections st)) (st, [])) as H.
  destruct (closeAll _ _) as [st1 out1]. cbn [fst] in H. rewrite <- H.
  cbn [destroyPeer fst].
  destruct (peer st1) as [[[|] tracked]|]; cbn [negb Peer.destroyed fst];
    try reflexivity.
  apply (closeTracked_messages tracked st1).
Qed.

Lemma joinRoom_messages st : messages (fst (joinRoom st)) = messages st.
Proof.
  unfold joinRoom. destruct (negb (isRoomCreator st)); [|reflexivity].
  destruct (peer_connect _ _ _); reflexivity.
Qed.

Lemma react_messages sig st :
  exists added,
    Permutation (messages (fst (react sig st))) (messages st ++ added).
Proof.
  assert (forall s : State, messages s = messages st ->
            exists added, Permutation (messages s) (messages st ++ added)) as Same.
  { intros s ->. exists []. now rewrite List.app_nil_r. }
  destruct sig as [ev|ty msg|conn msg|]; cbn [react fst]; try (now apply Same).
  destruct ev as [id|conn|conn|conn data|conn|text|t1 t2 t3|now|now| |];
    cbn [step fst]; try (now apply Same).
  - apply Same. unfold onPeerOpen.
    match goal with |- context [if ?b then _ else _] => destruct b end;
      [now rewrite joinRoom_messages | reflexivity].
  - apply Same. unfold onConnOpen. now destruct (is_join_request conn).
  - unfold onConnData. destruct data as [i u|ms|ps|m|ty]; cbn [handlePeerData].
    + apply Same. now destruct (negb _).
    + eexists. cbn [messages set_messages]. apply sort_by_timestamp_perm.
    + now apply Same.
    + destruct (negb _); [|now apply Same].
      exists [m]. cbn [messages set_messages]. apply sort_by_timestamp_perm.
    + now apply Same.
  - apply Same. now rewrite onConnClose_messages.
  - unfold sendMessage. destruct (_ || _); [now apply Same|].
    exists [newMessage t1 t2 st]. reflexivity.
  - apply Same. unfold timeoutCheck. now destruct (_ <? _)%Z.
  - apply Same. unfold flushWatchers. now destruct (watchQueued st).
  - apply Same. apply handleDisconnect_messages.
  - apply Same. unfold onBeforeUnmount.
    pose proof (handleDisconnect_messages st) as H.
    now destruct (handleDisconnect st).
Qed.

(** X12. No callback of the view removes or alters a log entry: after any
    sequence of transport signals, user actions, timer ticks, errors and
    teardown runs, the log is a rearrangement of the log before together
    with the entries added since. *)
Theorem log_retention (sigs : list Signal) (st : State) :
  exists added, Permutation (messages (run sigs st)) (messages st ++ added).
Proof.
  revert st. induction sigs as [|sig sigs IH]; intros st.
  - exists []. cbn. now rewrite List.app_nil_r.
  - cbn [run List.fold_left]. fold (run sigs (fst (react sig st))).
    destruct (IH (fst (react sig st))) as [added2 H2].
    destruct (react_messages sig st) as [added1 H1].
    exists (added1 ++ added2). rewrite H2, H1. now rewrite List.app_assoc.
Qed.

(** *** Roster entries only fade *)

Lemma fades_refl q : fades q q.
Proof. unfold fades. tauto. Qed.

Lemma fades_trans q1 q2 q3 : fades q1 q2 -> fades q2 q3 -> fades q1 q3.
Proof. unfold fades. intros [? [? ?]] [? [? ?]]. repeat split; try congruence; auto. Qed.

Lemma Forall2_fades_refl ps : List.Forall2 fades ps ps.
Proof. induction ps; constructor; auto using fades_refl. Qed.

Lemma Forall2_fades_trans ps1 ps2 ps3 :
  List.Forall2 fades ps1 ps2 -> List.Forall2 fades ps2 ps3 ->
  List.Forall2 fades ps1 ps3.
Proof.
  intros H. revert ps3. induction H; intros ps3 H3; inversion H3; subst;
    constructor; eauto using fades_trans.
Qed.

Lemma roster_evolves_refl ps : roster_evolves ps ps.
Proof.
  exists ps, []. split; [now rewrite List.app_nil_r | apply Forall2_fades_refl].
Qed.

Lemma roster_evolves_app ps added : roster_evolves ps (ps ++ added).
Proof. exists ps, added. split; [reflexivity | apply Forall2_fades_refl]. Qed.

Lemma roster_evolves_trans ps1 ps2 ps3 :
  roster_evolves ps1 ps2 -> roster_evolves ps2 ps3 -> roster_evolves ps1 ps3.
Proof.
  intros [k1 [a1 [-> H1]]] [k2 [a2 [-> H2]]].
  apply List.Forall2_app_inv_l in H2 as [k [k' [Hk [_ ->]]]].
  exists k, (k' ++ a2). split; [now rewrite List.app_assoc|].
  eapply Forall2_fades_trans; eauto.
Qed.

Lemma Forall2_fades_alter ps n :
  List.Forall2 fades ps (alter Participant.disconnect n ps).
Proof.
  revert n. induction ps as [|p ps IH]; intros [|n]; cbn; constructor;
    auto using fades_refl, Forall2_fades_refl.
  unfold fades. cbn. repeat split; auto. discriminate.
Qed.

Lemma onConnClose_evolves conn st :
  roster_evolves (participants st) (participants (onConnClose conn st)).
Proof.
  rewrite onConnClose_participants.
  destruct (findIndex _ _); [|apply roster_evolves_refl].
  eexists _, []. split; [now rewrite List.app_nil_r | apply Forall2_fades_alter].
Qed.

Lemma closeAll_evolves snapshot acc :
  roster_evolves (participants (fst acc)) (participants (fst (closeAll snapshot acc))).
Proof.
  revert acc. induction snapshot as [|[k c] l IH]; intros [st out];
    [apply roster_evolves_refl|].
  cbn [closeAll List.fold_left]. fold (closeAll l).
  eapply roster_evolves_trans; [|apply IH].
  cbn [closeIfOpen]. destruct (Conn.open c); [|apply roster_evolves_refl].
  cbn [fst].
  apply (onConnClose_evolves c
           (untrack_conn c (set_connections (alter Conn.closed k (connections st)) st))).
Qed.

Lemma closeTracked_evolves tracked st :
  roster_evolves (participants st) (participants (closeTracked tracked st)).
Proof.
  revert st. induction tracked as [|c l IH]; intros st; [apply roster_evolves_refl|].
  cbn [closeTracked List.fold_left]. fold (closeTracked l).
  eapply roster_evolves_trans; [|apply IH].
  destruct (Conn.open c); [apply onConnClose_evolves | apply roster_evolves_refl].
Qed.

Lemma destroyPeer_evolves acc :
  roster_evolves (participants (fst acc)) (participants (fst (destroyPeer acc))).
Proof.
  destruct acc as [st out]. cbn [destroyPeer fst].
  destruct (peer st) as [[[|] tracked]|]; cbn [negb Peer.destroyed fst];
    try apply roster_evolves_refl.
  apply (closeTracked_evolves tracked st).
Qed.

Lemma handleDisconnect_evolves st :
  roster_evolves (participants st) (participants (fst (handleDisconnect st))).
Proof.
  unfold handleDisconnect.
  eapply roster_evolves_trans; [|apply destroyPeer_evolves].
  apply (closeAll_evolves _ (st, [])).
Qed.

Lemma react_evolves sig st :
  roster_evolves (participants st) (participants (fst (react sig st))).
Proof.
  destruct sig as [ev|ty msg|conn msg|]; cbn [react fst];
    try apply roster_evolves_refl.
  destruct ev as [id|conn|conn|conn data|conn|text|t1 t2 t3|now|now| |];
    cbn [step fst]; try apply roster_evolves_refl.
  - unfold onPeerOpen.
    match goal with |- context [if ?b then _ else _] => destruct b end.
    + rewrite joinRoom_participants. apply roster_evolves_app.
    + apply roster_evolves_app.
  - unfold onConnOpen. destruct (is_join_request conn); apply roster_evolves_refl.
  - unfold onConnData. destruct data as [i u|ms|ps|m|ty]; cbn [handlePeerData].
    + destruct (negb _); [apply roster_evolves_app | apply roster_evolves_refl].
    + apply roster_evolves_refl.
    + apply roster_evolves_app.
    + destruct (negb _); apply roster_evolves_refl.
    + apply roster_evolves_refl.
  - apply (onConnClose_evolves conn (untrack_conn conn st)).
  - unfold sendMessage. destruct (_ || _); apply roster_evolves_refl.
  - unfold timeoutCheck. destruct (_ <? _)%Z; apply roster_evolves_refl.
  - unfold flushWatchers. destruct (watchQueued st); apply roster_evolves_refl.
  - apply handleDisconnect_evolves.
  - unfold onBeforeUnmount.
    pose proof (handleDisconnect_evolves st) as H.
    now destruct (handleDisconnect st).
Qed.

(** X13. A roster entry that is shown disconnected is never shown connected
    again: over any sequence of callbacks every entry keeps its position,
    id and username, its [isConnected] can only go from true to false,
    and new entries come behind the former ones.  In particular a
    USER_INFO frame from a peer that reconnects under its old address
    leaves its entry disconnected. *)
Theorem roster_only_fades (sigs : list Signal) (st : State) :
  roster_evolves (participants st) (participants (run sigs st))
  /\ forall n q, participants st !! n = Some q ->
       exists q', participants (run sigs st) !! n = Some q'
                  /\ Participant.id q' = Participant.id q
                  /\ Participant.username q' = Participant.username q
                  /\ (Participant.isConnected q = false ->
                      Participant.isConnected q' = false).
Proof.
  assert (roster_evolves (participants st) (participants (run sigs st))) as H.
  { revert st. induction sigs as [|sig sigs IH]; intros st;
      [apply roster_evolves_refl|].
    cbn [run List.fold_left]. fold (run sigs (fst (react sig st))).
    eapply roster_evolves_trans; [apply react_evolves | apply IH]. }
  split; [exact H|].
  destruct H as [kept [added [-> HF]]]. intros n q Hq.
  revert n Hq. induction HF as [|p p' ps ps' Hp HF IH]; intros [|n] Hq; cbn in *;
    try discriminate.
  - injection Hq as <-. exists p'. destruct Hp as [H1 [H2 H3]].
    repeat split; auto.
    intros E. destruct (Participant.isConnected p') eqn:E'; [|reflexivity].
    rewrite H3 in E by reflexivity. discriminate.
  - now apply IH.
Qed.

(** ** The connection set *)

Lemma keyed_by_peer_insert (cs : gmap string Conn.t) conn :
  keyed_by_peer cs -> keyed_by_peer (<[Conn.peer conn := conn]> cs).
Proof.
  intros H k c. destruct (decide (Conn.peer conn = k)) as [<-|Hne].
  - rewrite lookup_insert_eq. now intros [= <-].
  - rewrite lookup_insert_ne by exact Hne. apply H.
Qed.

Lemma keyed_by_peer_delete (cs : gmap string Conn.t) p :
  keyed_by_peer cs -> keyed_by_peer (delete p cs).
Proof. intros H k c Hk. apply lookup_delete_Some in Hk as [_ Hk]. now apply H. Qed.

Lemma keyed_by_peer_closed (cs : gmap string Conn.t) k0 :
  keyed_by_peer cs -> keyed_by_peer (alter Conn.closed k0 cs).
Proof.
  intros H k c. destruct (decide (k0 = k)) as [<-|Hne].
  - rewrite lookup_alter_eq. destruct (cs !! k0) as [c0|] eqn:E; [|discriminate].
    intros [= <-]. cbn. now apply H.
  - rewrite lookup_alter_ne by exact Hne. apply H.
Qed.

Lemma closeAll_keyed snapshot acc :
  keyed_by_peer (connections (fst acc)) ->
  keyed_by_peer (connections (fst (closeAll snapshot acc))).
Proof.
  revert acc. induction snapshot as [|[k c] l IH]; intros [st out] H; [exact H|].
  cbn [closeAll List.fold_left]. fold (closeAll l). apply IH.
  cbn [closeIfOpen]. destruct (Conn.open c); [|exact H].
  cbn [fst]. rewrite onConnClose_connections. cbn [connections set_connections].
  now apply keyed_by_peer_delete, keyed_by_peer_closed.
Qed.

Lemma handleDisconnect_keyed st :
  keyed_by_peer (connections st) ->
  keyed_by_peer (connections (fst (handleDisconnect st))).
Proof.
  intros H k c Hk. unfold handleDisconnect in Hk.
  apply destroyPeer_connections_kept in Hk.
  revert k c Hk. now apply (closeAll_keyed _ (st, [])).
Qed.

Lemma joinRoom_keyed st :
  keyed_by_peer (connections st) -> keyed_by_peer (connections (fst (joinRoom st))).
Proof.
  intros H. unfold joinRoom. destruct (negb (isRoomCreator st)); [|exact H].
  destruct (peer_connect _ _ _) as [conn|]; [|exact H].
  cbn. now apply keyed_by_peer_insert.
Qed.

Lemma react_keyed sig st :
  keyed_by_peer (connections st) -> keyed_by_peer (connections (fst (react sig st))).
Proof.
  intros H. destruct sig as [ev|ty msg|conn msg|]; cbn [react fst]; try exact H.
  destruct ev as [id|conn|conn|conn data|conn|text|t1 t2 t3|now|now| |];
    cbn [step fst]; try exact H.
  - unfold onPeerOpen.
    match goal with |- context [if ?b then _ else _] => destruct b end;
      [now apply joinRoom_keyed | exact H].
  - now apply keyed_by_peer_insert.
  - unfold onConnOpen. now destruct (is_join_request conn).
  - unfold onConnData. destruct data as [i u|ms|ps|m|ty]; cbn [handlePeerData];
      try exact H; now destruct (negb _).
  - rewrite onConnClose_connections. now apply keyed_by_peer_delete.
  - unfold sendMessage. now destruct (_ || _).
  - unfold timeoutCheck. now destruct (_ <? _)%Z.
  - unfold flushWatchers. now destruct (watchQueued st).
  - now apply handleDisconnect_keyed.
  - unfold onBeforeUnmount.
    pose proof (handleDisconnect_keyed st H) as H'.
    now destruct (handleDisconnect st).
Qed.

(** X14. In every state the view reaches from its setup, each connection
    of the set is stored under its own peer address, so the set holds at
    most one connection per address; and a teardown from such a state
    calls [close()] at most once per address. *)
Theorem connections_keyed_by_peer
  (room : string) (localStorage : gmap string string) (now : Z)
  (sigs : list Signal) :
  let st := run sigs (fst (setup room localStorage now)) in
  keyed_by_peer (connections st)
  /\ forall p, (count_close p (snd (handleDisconnect st)) <= 1)%nat.
Proof.
  cbn zeta.
  assert (forall st, keyed_by_peer (connections st) ->
                     keyed_by_peer (connections (run sigs st))) as Hrun.
  { induction sigs as [|sig sigs IH]; intros st H; [exact H|].
    cbn [run List.fold_left]. fold (run sigs (fst (react sig st))).
    now apply IH, react_keyed. }
  assert (keyed_by_peer (connections (run sigs (fst (setup room localStorage now)))))
    as H.
  { apply Hrun. intros k c. cbn. rewrite lookup_empty. discriminate. }
  split; [exact H|]. intros p.
  rewrite handleDisconnect_effects.
  pose proof (count_close_closeCalls _ p H) as Hc.
  unfold count_close in *. rewrite List.filter_app, List.length_app.
  destruct (livePeer _); cbn [List.filter length]; lia.
Qed.

Lemma onConnClose_eq conn st :
  onConnClose conn st =
  set_participants
    (match findIndex (Conn.peer conn) (participants st) with
     | Some n => alter Participant.disconnect n (participants st)
     | None => participants st
     end)
    (set_connections (delete (Conn.peer conn) (connections st)) st).
Proof.
  pose proof (onConnClose_participants conn st) as Hp.
  unfold onConnClose in *. cbn [participants set_connections] in *.
  destruct (findIndex (Conn.peer conn) (participants st)) as [n|]; [|reflexivity].
  destruct (participants st !! n); cbn [participants set_participants] in Hp.
  - now rewrite Hp.
  - now rewrite <- Hp.
Qed.

Lemma findIndex_ids i ps ps' :
  List.map Participant.id ps = List.map Participant.id ps' ->
  findIndex i ps = findIndex i ps'.
Proof.
  revert ps'. induction ps as [|p ps IH]; intros [|p' ps']; cbn; try discriminate;
    [reflexivity|].
  intros [= E1 E2]. rewrite E1, (IH ps' E2). reflexivity.
Qed.

Lemma alter_disconnect_ids n ps :
  List.map Participant.id (alter Participant.disconnect n ps)
  = List.map Participant.id ps.
Proof.
  revert n. induction ps as [|p ps IH]; intros [|n]; cbn; try reflexivity.
  now rewrite IH.
Qed.

Lemma alter_disconnect_twice n (ps : list Participant.t) :
  alter Participant.disconnect n (alter Participant.disconnect n ps)
  = alter Participant.disconnect n ps.
Proof.
  revert n. induction ps as [|p ps IH]; intros [|n]; cbn; try reflexivity.
  now rewrite IH.
Qed.

(** X15. The close handler is idempotent: a close event delivered twice
    for the same connection leaves the state the first delivery left. *)
Theorem onConnClose_twice (conn : Conn.t) (st : State) :
  onConnClose conn (onConnClose conn st) = onConnClose conn st.
Proof.
  rewrite (onConnClose_eq conn (onConnClose conn st)), (onConnClose_eq conn st).
  cbn [participants connections set_participants set_connections].
  unfold set_participants, set_connections. cbn.
  rewrite delete_delete_eq.
  destruct (findIndex (Conn.peer conn) (participants st)) as [n|] eqn:E.
  - rewrite (findIndex_ids _ _ (participants st) (alter_disconnect_ids n _)), E.
    now rewrite alter_disconnect_twice.
  - now rewrite E.
Qed.

Lemma framesTo_broadcast_none p f (cs : gmap string Conn.t) :
  (forall k c, cs !! k = Some c -> Conn.peer c <> p) ->
  framesTo p (broadcast f cs) = [].
Proof.
  intros H. unfold framesTo, broadcast.
  assert (forall kc, In kc (map_to_list cs) -> Conn.peer (snd kc) <> p) as H'.
  { intros [k c] Hin. apply list_elem_of_In, elem_of_map_to_list in Hin.
    now apply (H k c). }
  induction (map_to_list cs) as [|[k c] l IH]; [reflexivity|].
  cbn [List.map List.flat_map snd].
  pose proof (H' (k, c) (or_introl eq_refl)) as Hne. cbn in Hne.
  apply String.eqb_neq in Hne. rewrite Hne. cbn.
  apply IH. intros kc Hkc. apply H'. now right.
Qed.

(** X16. The close handler removes whatever connection is stored under
    the closing connection's peer address.  When a newer connection to the
    same address has been registered in the meantime, the close event of
    the older one unregisters the newer one: the set then has no entry
    for that address and a later [sendMessage] sends that peer nothing. *)
Theorem stale_close_unregisters (older newer : Conn.t) (st : State) :
  Conn.peer older = Conn.peer newer ->
  keyed_by_peer (connections st) ->
  let st' := onConnClose older (handleConnection newer st) in
  connections st' = delete (Conn.peer newer) (connections st)
  /\ connections st' !! Conn.peer newer = None
  /\ forall draft t_id t_stamp t_act,
       framesTo (Conn.peer newer)
         (snd (sendMessage t_id t_stamp t_act (setDraft draft st'))) = [].
Proof.
  intros Hp Hk st'.
  assert (connections st' = delete (Conn.peer newer) (connections st)) as Hc.
  { subst st'. rewrite onConnClose_connections, Hp. cbn.
    apply delete_insert_eq. }
  split; [exact Hc|]. split; [rewrite Hc; apply lookup_delete_eq|].
  intros draft t1 t2 t3. unfold sendMessage.
  destruct (_ || _); [reflexivity|]. cbn [snd connections set_messages setDraft set_message].
  rewrite Hc. apply framesTo_broadcast_none.
  intros k c Hkc. apply lookup_delete_Some in Hkc as [Hne Hkc].
  rewrite (Hk k c Hkc). congruence.
Qed.

(** The joiner's first channel closes after a second one was accepted. *)
Lemma stale_close_unregisters_witness :
  let older := incoming "J" None in
  let newer := Conn.mk "J" None true in
  Conn.peer older = Conn.peer newer
  /\ keyed_by_peer (connections anchor)
  /\ connections (onConnClose older (handleConnection newer anchor)) !! "J" = None.
Proof.
  cbn zeta.
  assert (keyed_by_peer (connections anchor)) as Hk.
  { intros k c. cbn. rewrite lookup_empty. discriminate. }
  split; [reflexivity|]. split; [exact Hk|].
  destruct (stale_close_unregisters (incoming "J" None) (Conn.mk "J" None true)
              anchor eq_refl Hk) as [_ [H _]].
  exact H.
Defined.

(** ** What teardown leaves behind *)

Lemma Metadata_eqb_eq a b : Metadata.eqb a b = true -> a = b.
Proof.
  destruct a as [u1 j1], b as [u2 j2]. unfold Metadata.eqb. cbn.
  intros H. apply andb_true_iff in H as [H1 H2].
  apply String.eqb_eq in H1. apply Bool.eqb_prop in H2. now subst.
Qed.

Lemma Conn_eqb_eq a b : Conn.eqb a b = true -> a = b.
Proof.
  destruct a as [p1 m1 o1], b as [p2 m2 o2]. unfold Conn.eqb. cbn.
  intros H. apply andb_true_iff in H as [H H3].
  apply andb_true_iff in H as [H1 H2].
  apply String.eqb_eq in H1. apply Bool.eqb_prop in H3. subst.
  destruct m1 as [x|], m2 as [y|]; try discriminate; [|reflexivity].
  now rewrite (Metadata_eqb_eq x y H2).
Qed.

Lemma remove_first_In c l x : In x (Peer.remove_first c l) -> In x l.
Proof.
  induction l as [|y l IH]; cbn; [tauto|].
  destruct (Conn.eqb y c); [now right|]. intros [H|H]; [now left | right; auto].
Qed.

Lemma remove_first_keeps c l x :
  In x l -> In x (Peer.remove_first c l) \/ x = c.
Proof.
  induction l as [|y l IH]; cbn; [tauto|].
  destruct (Conn.eqb y c) eqn:E.
  - intros [<-|H]; [right; now apply Conn_eqb_eq | now left].
  - intros [<-|H]; [left; now left|]. destruct (IH H); [left; now right | now right].
Qed.

(** The loop takes off the peer object the connections it closes, and no
    other. *)
Lemma closeAll_tracked snapshot st out x :
  (In x (tracked (fst (closeAll snapshot (st, out)))) -> In x (tracked st))
  /\ (In x (tracked st) ->
      In x (tracked (fst (closeAll snapshot (st, out))))
      \/ exists k, In (k, x) snapshot /\ Conn.open x = true).
Proof.
  revert st out. induction snapshot as [|[k c] l IH]; intros st out; [cbn; tauto|].
  cbn [closeAll List.fold_left]. fold (closeAll l).
  cbn [closeIfOpen]. destruct (Conn.open c) eqn:Eo.
  - destruct (IH (onConnClose c
                    (untrack_conn c
                       (set_connections (alter Conn.closed k (connections st)) st)))
                 (out ++ [ConnClose (Conn.peer c)])) as [IH1 IH2].
    assert (tracked (onConnClose c
                       (untrack_conn c
                          (set_connections (alter Conn.closed k (connections st)) st)))
            = Peer.remove_first c (tracked st)) as Ht.
    { unfold tracked. rewrite onConnClose_peer. cbn. now destruct (peer st). }
    rewrite Ht in IH1, IH2. split.
    + intros H. eapply remove_first_In. eauto.
    + intros H. destruct (remove_first_keeps c _ _ H) as [H'| ->].
      * destruct (IH2 H') as [?|[k' [? ?]]]; [now left|].
        right. exists k'. split; [now right | assumption].
      * right. exists k. split; [now left | exact Eo].
  - destruct (IH st out) as [IH1 IH2]. split; [exact IH1|].
    intros H. destruct (IH2 H) as [?|[k' [? ?]]]; [now left|].
    right. exists k'. split; [now right | assumption].
Qed.

Lemma closeAll_lookup snapshot st out k :
  keyed_by_peer (connections st) ->
  (forall kc, In kc snapshot -> Conn.peer (snd kc) = fst kc) ->
  connections (fst (closeAll snapshot (st, out))) !! k =
  if List.existsb (fun kc => String.eqb (fst kc) k && Conn.open (snd kc)) snapshot
  then None else connections st !! k.
Proof.
  revert st out. induction snapshot as [|[k0 c0] l IH]; intros st out Hk Hl;
    [reflexivity|].
  cbn [closeAll List.fold_left]. fold (closeAll l).
  pose proof (Hl (k0, c0) (or_introl eq_refl)) as Hp. cbn in Hp.
  assert (forall kc, In kc l -> Conn.peer (snd kc) = fst kc) as Hl'
    by (intros kc H; apply Hl; now right).
  cbn [closeIfOpen List.existsb fst snd]. destruct (Conn.open c0) eqn:Eo.
  - rewrite IH; [|rewrite onConnClose_connections;
                   now apply keyed_by_peer_delete, keyed_by_peer_closed | exact Hl'].
    rewrite onConnClose_connections.
    cbn [connections untrack_conn set_peer set_connections]. rewrite Hp.
    destruct (String.eqb_spec k0 k) as [->|Hne]; cbn [andb orb].
    + rewrite lookup_delete_eq. now destruct (List.existsb _ l).
    + rewrite lookup_delete_ne, lookup_alter_ne by exact Hne. reflexivity.
  - rewrite andb_false_r. cbn [orb]. now apply IH.
Qed.

Lemma closeTracked_lookup l st k :
  connections (closeTracked l st) !! k =
  if List.existsb (fun t => Conn.open t && String.eqb (Conn.peer t) k) l
  then None else connections st !! k.
Proof.
  revert st. induction l as [|t l IH]; intros st; [reflexivity|].
  cbn [closeTracked List.fold_left List.existsb]. fold (closeTracked l).
  rewrite IH. destruct (Conn.open t); cbn [andb orb]; [|reflexivity].
  rewrite onConnClose_connections.
  destruct (String.eqb_spec (Conn.peer t) k) as [->|Hne]; cbn [orb].
  - rewrite lookup_delete_eq. now destruct (List.existsb _ l).
  - now rewrite lookup_delete_ne by exact Hne.
Qed.

Lemma snapshot_lookup (cs : gmap string Conn.t) k :
  (if List.existsb (fun kc => String.eqb (fst kc) k && Conn.open (snd kc))
        (map_to_list cs)
   then None else cs !! k)
  = match cs !! k with
    | Some c => if Conn.open c then None else Some c
    | None => None
    end.
Proof.
  destruct (List.existsb _ _) eqn:E.
  - apply List.existsb_exists in E as [[k' c] [Hin E]].
    apply andb_true_iff in E as [E1 E2]. cbn in E1, E2.
    apply String.eqb_eq in E1. subst k'.
    apply list_elem_of_In, elem_of_map_to_list in Hin. now rewrite Hin, E2.
  - destruct (cs !! k) as [c|] eqn:Ec; [|reflexivity].
    destruct (Conn.open c) eqn:Eo; [|reflexivity].
    exfalso. apply Bool.not_true_iff_false in E. apply E.
    apply List.existsb_exists. exists (k, c). split.
    + now apply list_elem_of_In, elem_of_map_to_list.
    + cbn. now rewrite String.eqb_refl, Eo.
Qed.

(** X17. Teardown, from a state whose connections are stored under their
    peer addresses.  For an address [k] to which the peer object tracks no
    open connection other than the registered one, the entry under [k] is
    removed exactly when its connection was open; a connection that had
    not opened yet is neither closed by the view nor removed, and stays
    as it was.  For an address [k] to which a live peer object tracks an
    open connection, also one that a newer connection has replaced in the
    set, no entry is left under [k]: [destroy()] closes that connection
    and its close handler removes whatever is registered under [k]. *)
Theorem handleDisconnect_connections (st : State) :
  keyed_by_peer (connections st) ->
  (forall k,
     (forall c, In c (tracked st) -> Conn.open c = true -> Conn.peer c = k ->
                connections st !! k = Some c) ->
     connections (fst (handleDisconnect st)) !! k =
     match connections st !! k with
     | Some c => if Conn.open c then None else Some c
     | None => None
     end)
  /\ (forall c, livePeer st = true -> In c (tracked st) -> Conn.open c = true ->
                connections (fst (handleDisconnect st)) !! Conn.peer c = None).
Proof.
  intros Hk.
  assert (forall kc, In kc (map_to_list (connections st)) ->
                     Conn.peer (snd kc) = fst kc) as Hsnap.
  { intros [k' c] Hin. apply list_elem_of_In, elem_of_map_to_list in Hin.
    now apply Hk. }
  assert (forall k,
            connections (fst (closeAll (map_to_list (connections st)) (st, []))) !! k
            = match connections st !! k with
              | Some c => if Conn.open c then None else Some c
              | None => None
              end) as Hloop.
  { intros k. rewrite closeAll_lookup by assumption. apply snapshot_lookup. }
  pose proof (closeAll_livePeer (map_to_list (connections st)) (st, [])) as Hlive.
  pose proof (fun x => closeAll_tracked (map_to_list (connections st)) st [] x) as Htr.
  unfold handleDisconnect.
  destruct (closeAll (map_to_list (connections st)) (st, [])) as [st1 out1].
  cbn [fst] in *. unfold livePeer in Hlive at 1.
  unfold destroyPeer.
  destruct (peer st1) as [[[|] tr1]|] eqn:Ep;
    cbn [negb Peer.destroyed Peer.connections fst] in *.
  - split; [intros k _; apply Hloop|]. intros c Hl. rewrite <- Hlive in Hl.
    discriminate.
  - assert (tracked st1 = tr1) as Etr by (unfold tracked; now rewrite Ep).
    rewrite Etr in Htr.
    cbn [connections set_peer]. split.
    + intros k Hreg. rewrite closeTracked_lookup, Hloop.
      match goal with
      | |- context [List.existsb ?f tr1] => destruct (List.existsb f tr1) eqn:E
      end; [|reflexivity].
      apply List.existsb_exists in E as [t [Hin E]].
      apply andb_true_iff in E as [Eo Et]. apply String.eqb_eq in Et.
      apply (Htr t) in Hin. now rewrite (Hreg t Hin Eo Et), Eo.
    + intros c _ Hin Ho. rewrite closeTracked_lookup.
      match goal with
      | |- context [List.existsb ?f tr1] => destruct (List.existsb f tr1) eqn:E
      end; [reflexivity|].
      rewrite Hloop.
      destruct (proj2 (Htr c) Hin) as [Hin1|[k' [Hsn _]]].
      * exfalso. apply Bool.not_true_iff_false in E. apply E.
        apply List.existsb_exists. exists c. split; [exact Hin1|].
        now rewrite Ho, String.eqb_refl.
      * pose proof (Hsnap _ Hsn) as Hp. cbn in Hp. subst k'.
        apply list_elem_of_In, elem_of_map_to_list in Hsn. now rewrite Hsn, Ho.
  - split; [intros k _; apply Hloop|]. intros c Hl. rewrite <- Hlive in Hl.
    discriminate.
Qed.

(** The anchor accepts a channel from ["J"] that is open, then a second one
    that has not opened yet, and tears down: the second one goes with the
    first.  With the second one alone, it stays. *)
Lemma handleDisconnect_connections_witness :
  let older := Conn.mk "J" None true in
  let newer := incoming "J" None in
  let alone := fst (step (Incoming newer) anchor) in
  let both := fst (step (Incoming newer) (fst (step (Incoming older) anchor))) in
  keyed_by_peer (connections alone)
  /\ keyed_by_peer (connections both)
  /\ connections (fst (handleDisconnect alone)) !! "J" = Some newer
  /\ connections (fst (handleDisconnect both)) !! "J" = None.
Proof.
  cbn zeta.
  assert (keyed_by_peer (connections anchor)) as Hk0.
  { intros k c. cbn. rewrite lookup_empty. discriminate. }
  assert (keyed_by_peer
            (connections (fst (step (Incoming (incoming "J" None)) anchor)))) as Hk1.
  { cbn. now apply keyed_by_peer_insert. }
  assert (keyed_by_peer
            (connections
               (fst (step (Incoming (incoming "J" None))
                       (fst (step (Incoming (Conn.mk "J" None true)) anchor))))))
    as Hk2.
  { cbn. apply (keyed_by_peer_insert _ (incoming "J" None)).
    now apply (keyed_by_peer_insert _ (Conn.mk "J" None true)). }
  split; [exact Hk1|]. split; [exact Hk2|]. split.
  - destruct (handleDisconnect_connections _ Hk1) as [H _].
    rewrite (H "J"); [reflexivity|].
    intros c [<-|[]] Ho. discriminate Ho.
  - destruct (handleDisconnect_connections _ Hk2) as [_ H].
    apply (H (Conn.mk "J" None true)); [reflexivity | now left | reflexivity].
Defined.

(** ** The join handshake, seen from the joiner *)

Lemma filter_all_true (A : Type) (l : list A) : List.filter (fun _ => true) l = l.
Proof. induction l as [|x l IH]; cbn; [reflexivity | now rewrite IH]. Qed.

Lemma roster_ids_grow from data st i :
  In i (List.map Participant.id (participants st)) ->
  In i (List.map Participant.id (participants (handlePeerData from data st))).
Proof.
  intros H. destruct data as [j u|ms|ps|m|ty]; cbn [handlePeerData]; auto.
  - destruct (negb _); [|exact H]. cbn [participants set_participants].
    rewrite List.map_app, List.in_app_iff. now left.
  - cbn [participants set_participants].
    rewrite List.map_app, List.in_app_iff. now left.
  - now destruct (negb _).
Qed.

(** X18. The backfill reaches the joiner.  When the peer [a] accepts a
    join request of [j] and the channel opens, the three frames [a] sends,
    handled by [j] in the order sent, leave [j] with every message id of
    [a]'s log, every participant id of [a]'s roster and [a]'s own address
    in its roster; and a joiner whose log was empty holds exactly [a]'s
    log if that log was in timestamp order. *)
Theorem backfill_reaches_joiner (a j : State) (md : Metadata.t) :
  Metadata.joinRoom md = true ->
  let ca := incoming (peerId j) (Some md) in
  let out := snd (onConnOpen ca (handleConnection ca a)) in
  let j' := deliver (peerId a) (framesTo (peerId j) out) j in
  (forall i, In i (List.map Message.id (messages a)) ->
             In i (List.map Message.id (messages j')))
  /\ (forall i, In i (List.map Participant.id (participants a)) ->
                In i (List.map Participant.id (participants j')))
  /\ In (peerId a) (List.map Participant.id (participants j'))
  /\ (messages j = [] -> StronglySorted ts_le (messages a) ->
      messages j' = messages a).
Proof.
  intros Hmd ca out j'. subst j' out ca.
  rewrite onConnOpen_join_request by (cbn; exact Hmd).
  cbn [incoming Conn.peer framesTo List.flat_map handleConnection peerId username
       messages participants set_connections].
  rewrite String.eqb_refl. cbn [List.app deliver List.fold_left].
  set (j1 := handlePeerData (peerId a) (USER_INFO (peerId a) (username a)) j).
  set (j2 := handlePeerData (peerId a) (INIT_MESSAGES (messages a)) j1).
  assert (messages j1 = messages j) as Hm1.
  { subst j1. cbn [handlePeerData]. now destruct (negb _). }
  assert (In (peerId a) (List.map Participant.id (participants j1))) as Hself.
  { subst j1. cbn [handlePeerData].
    destruct (has_participant (peerId a) (participants j)) eqn:E; cbn [negb].
    - now apply has_participant_In.
    - cbn [participants set_participants].
      rewrite List.map_app, List.in_app_iff. right. now left. }
  repeat split.
  - intros i Hi. cbn [handlePeerData messages set_participants].
    subst j2. cbn [handlePeerData messages set_messages].
    apply sort_by_timestamp_ids. rewrite List.map_app, List.in_app_iff.
    destruct (has_message i (messages j1)) eqn:E.
    + left. now apply has_message_In.
    + right. apply List.in_map_iff in Hi as [m [<- Hm]].
      apply List.in_map, List.filter_In. now rewrite E.
  - intros i Hi. cbn [handlePeerData participants set_participants].
    rewrite List.map_app, List.in_app_iff.
    destruct (has_participant i (participants j2)) eqn:E.
    + left. now apply has_participant_In.
    + right. apply List.in_map_iff in Hi as [q [<- Hq]].
      apply List.in_map, List.filter_In. now rewrite E.
  - do 2 apply roster_ids_grow. exact Hself.
  - intros Hempty Hs. cbn [handlePeerData messages set_participants].
    subst j2. cbn [handlePeerData messages set_messages].
    rewrite Hm1, Hempty. cbn [List.app has_message List.existsb negb].
    rewrite (filter_all_true Message.t (messages a)).
    now apply sort_by_timestamp_fixpoint.
Qed.

(** The anchor accepts the joiner's request; the joiner handles the frames. *)
Lemma backfill_reaches_joiner_witness :
  let a := set_messages [hello_from_J] false anchor in
  let j := fst (onPeerOpen "J" joiner) in
  let md := Metadata.mk "bob" true in
  let ca := incoming (peerId j) (Some md) in
  Metadata.joinRoom md = true
  /\ messages
       (deliver (peerId a)
          (framesTo (peerId j) (snd (onConnOpen ca (handleConnection ca a)))) j)
     = messages a.
Proof.
  cbn zeta. split; [reflexivity|].
  destruct (backfill_reaches_joiner (set_messages [hello_from_J] false anchor)
              (fst (onPeerOpen "J" joiner)) (Metadata.mk "bob" true) eq_refl)
    as [_ [_ [_ H]]].
  apply H; [reflexivity|]. cbn. repeat constructor.
Defined.

(** ** Message ids across peers *)

Lemma pretty_N_go_dash_free x s :
  dash_free s = true -> dash_free (pretty_N_go x s) = true.
Proof.
  revert s. induction (N.lt_wf_0 x) as [x _ IH]; intros s Hs.
  assert (x = 0 \/ 0 < x)%N as [->|Hx] by lia.
  - now rewrite pretty_N_go_0.
  - rewrite pretty_N_go_step by exact Hx. apply IH.
    + now apply N.div_lt.
    + cbn [dash_free]. rewrite Hs, andb_true_r.
      unfold pretty_N_char. now repeat case_match.
Qed.

Lemma pretty_nonneg_dash_free (t : Z) : 0 <= t -> dash_free (pretty t) = true.
Proof.
  destruct t as [|p|p]; try lia; intros _; [reflexivity|].
  unfold pretty, pretty_Z, pretty, pretty_positive, pretty, pretty_N.
  destruct (decide (N.pos p = 0%N)); [reflexivity|].
  now apply pretty_N_go_dash_free.
Qed.

Lemma dash_inside p d : dash_free (p +:+ String "-" d) = false.
Proof.
  induction p as [|c p IH]; [reflexivity|].
  change (String c p +:+ String "-" d) with (String c (p +:+ String "-" d)).
  cbn [dash_free]. rewrite IH. apply andb_false_r.
Qed.

Lemma split_at_last_dash p1 p2 d1 d2 :
  dash_free d1 = true -> dash_free d2 = true ->
  p1 +:+ String "-" d1 = p2 +:+ String "-" d2 -> p1 = p2 /\ d1 = d2.
Proof.
  intros H1 H2. revert p2. induction p1 as [|c p1 IH]; intros [|c' p2].
  - intros [= ->]. now split.
  - change (String c' p2 +:+ String "-" d2) with (String c' (p2 +:+ String "-" d2)).
    change ("" +:+ String "-" d1) with (String "-" d1).
    intros [= <- ->]. now rewrite dash_inside in H1.
  - change (String c p1 +:+ String "-" d1) with (String c (p1 +:+ String "-" d1)).
    change ("" +:+ String "-" d2) with (String "-" d2).
    intros [= -> <-]. now rewrite dash_inside in H2.
  - change (String c p1 +:+ String "-" d1) with (String c (p1 +:+ String "-" d1)).
    change (String c' p2 +:+ String "-" d2) with (String c' (p2 +:+ String "-" d2)).
    intros [= -> E]. destruct (IH p2 E) as [-> ->]. now split.
Qed.

(** X19. With clock readings that are not negative, the id of a local
    message determines both the peer address and the time it was built
    from: two messages, sent by any two peers, get the same id only when
    address and time reading are the same, also when addresses contain
    dashes. *)
Theorem message_id_injective (p1 p2 : string) (t1 t2 : Z) :
  0 <= t1 -> 0 <= t2 ->
  message_id p1 t1 = message_id p2 t2 -> p1 = p2 /\ t1 = t2.
Proof.
  intros H1 H2 E. unfold message_id in E.
  change ("-" +:+ pretty t1) with (String "-" (pretty t1)) in E.
  change ("-" +:+ pretty t2) with (String "-" (pretty t2)) in E.
  apply split_at_last_dash in E as [-> E]; auto using pretty_nonneg_dash_free.
  split; [reflexivity|]. now apply pretty_Z_inj in E.
Qed.

(** An address with a dash in it, at time 2. *)
Lemma message_id_injective_witness :
  0 <= 2
  /\ message_id "a-1" 2 = message_id "a-1" 2
  /\ "a-1" = "a-1" /\ 2 = 2.
Proof.
  assert (0 <= 2) as H by lia.
  split; [exact H|]. split; [reflexivity|].
  exact (message_id_injective "a-1" "a-1" 2 2 H H eq_refl).
Defined.

(** ** From the home view into the chat view *)

Lemma truthy_trim_nonempty s : truthy (trim s) = true -> truthy s = true.
Proof. destruct s; [discriminate | reflexivity]. Qed.

(** X20. The chat view never runs without a name and never sends the
    visitor back for lack of one: whatever [localStorage] holds, the
    username after setup is not empty, it is the stored one when that is
    not empty and "Anonymous" otherwise, and the redirect of the setup
    guard is never issued. *)
Theorem setup_username (room : string) (localStorage : gmap string string) (now : Z) :
  let st := fst (setup room localStorage now) in
  truthy (username st) = true
  /\ snd (setup room localStorage now) = []
  /\ (forall u, localStorage !! "username" = Some u -> truthy u = true ->
                username st = u)
  /\ (localStorage !! "username" = None -> username st = "Anonymous")
  /\ (localStorage !! "username" = Some "" -> username st = "Anonymous").
Proof.
  cbn zeta. unfold setup. cbn [fst snd username]. unfold storedUsername.
  destruct (localStorage !! "username") as [u|] eqn:E.
  - destruct (truthy u) eqn:Et.
    + rewrite Et. cbn. repeat split; try discriminate.
      * intros u' [= <-] _. reflexivity.
      * intros [= ->]. discriminate.
    + cbn. repeat split; try discriminate.
      intros u' [= <-] Hu. congruence.
  - cbn. repeat split; discriminate.
Qed.

(** X21. Creating a room makes its creator the anchor.  With a name that
    has a visible character, [createNewRoom] stores name and room id and
    navigates to the room; the chat view mounted for that room in the same
    browser then runs under the name typed, takes the creator role, asks
    the transport for the room id as its own address, and when that
    address is granted it enters itself in the roster and dials nobody. *)
Theorem createNewRoom_makes_anchor
  (uuid : string) (h : Home.t) (localStorage : gmap string string)
  (now handle : Z) :
  whitespace_only (Home.username h) = false ->
  let '(h', storage, nav) := Home.createNewRoom uuid h localStorage in
  let mounted := onMounted storage handle (fst (setup uuid storage now)) in
  let opened := onPeerOpen uuid (fst mounted) in
  h' = h
  /\ nav = [RouterPush ("/chat/" +:+ uuid)]
  /\ username (fst mounted) = Home.username h
  /\ isRoomCreator (fst mounted) = true
  /\ snd mounted = Some uuid
  /\ snd opened = []
  /\ participants (fst opened) = [Participant.mk uuid (Home.username h) true]
  /\ peerId (fst opened) = uuid
  /\ connections (fst opened) = ∅.
Proof.
  intros Hu. apply truthy_trim in Hu. unfold Home.createNewRoom. rewrite Hu. cbn [negb].
  cbn zeta.
  assert (storedUsername
            (<["createdRoomId":=uuid]> (<["username":=Home.username h]> localStorage))
          = Home.username h) as Hname.
  { unfold storedUsername.
    rewrite lookup_insert_ne by discriminate. rewrite lookup_insert_eq.
    now rewrite (truthy_trim_nonempty _ Hu). }
  unfold onMounted, initializePeer, setup. cbn [fst snd roomId username].
  rewrite lookup_insert_eq, String.eqb_refl.
  unfold onPeerOpen. cbn. rewrite Hname. repeat split.
Qed.

(** Alice creates room ["r-1"] in a browser with empty storage. *)
Lemma createNewRoom_makes_anchor_witness :
  whitespace_only (Home.username (Home.mk "alice" "" "")) = false
  /\ isRoomCreator
       (fst (onMounted (snd (fst (Home.createNewRoom "r-1" (Home.mk "alice" "" "") ∅)))
               1 (fst (setup "r-1"
                         (snd (fst (Home.createNewRoom "r-1" (Home.mk "alice" "" "") ∅)))
                         0)))) = true.
Proof.
  split; [reflexivity|].
  pose proof (createNewRoom_makes_anchor "r-1" (Home.mk "alice" "" "") ∅ 0 1 eq_refl)
    as H.
  destruct (Home.createNewRoom "r-1" (Home.mk "alice" "" "") ∅) as [[h' storage] nav].
  cbn [fst snd]. destruct H as [_ [_ [_ [H _]]]]. exact H.
Defined.



(** X23. The home view refuses blank input without touching anything:
    with a name that is empty or white space only, [createNewRoom] and
    [joinRoom] leave [localStorage] as it is, navigate nowhere and show
    "Please enter a username"; with a name but a blank room id,
    [joinRoom] does the same with "Please enter a room ID".  The name
    check comes first. *)
Theorem home_refuses_blank_input
  (uuid : string) (h : Home.t) (localStorage : gmap string string) :
  (whitespace_only (Home.username h) = true ->
   Home.createNewRoom uuid h localStorage
   = (Home.mk (Home.username h) (Home.joinRoomId h) "Please enter a username",
      localStorage, [])
   /\ Home.joinRoom h localStorage
      = (Home.mk (Home.username h) (Home.joinRoomId h) "Please enter a username",
         localStorage, []))
  /\ (whitespace_only (Home.username h) = false ->
      whitespace_only (Home.joinRoomId h) = true ->
      Home.joinRoom h localStorage
      = (Home.mk (Home.username h) (Home.joinRoomId h) "Please enter a room ID",
         localStorage, [])).
Proof.
  split.
  - intros Hu. apply trim_empty_iff in Hu.
    unfold Home.createNewRoom, Home.joinRoom. rewrite Hu. now split.
  - intros Hu Hr. apply truthy_trim in Hu. apply trim_empty_iff in Hr.
    unfold Home.joinRoom. now rewrite Hu, Hr.
Qed.

(** ** Errors *)

(** X24. Every transport error is shown and nothing else happens: after
    the error handler of the peer or of a connection, whatever the error
    type and with or without an error text, the error message is not
    empty, and the log, the roster, the connection set and
    lastActivityTime are as before, so a connection that failed stays
    registered and its participant stays as shown; the timer callback
    that follows empties the message again. *)
Theorem errors_are_shown (st : State) :
  (forall type message,
     let st' := fst (react (PeerFailed type message) st) in
     truthy (errorMessage st') = true
     /\ messages st' = messages st
     /\ participants st' = participants st
     /\ connections st' = connections st
     /\ lastActivityTime st' = lastActivityTime st
     /\ errorMessage (fst (react ErrorExpired st')) = "")
  /\ (forall conn message,
        let st' := fst (react (ConnFailed conn message) st) in
        truthy (errorMessage st') = true
        /\ messages st' = messages st
        /\ participants st' = participants st
        /\ connections st' = connections st
        /\ connections st' !! Conn.peer conn = connections st !! Conn.peer conn
        /\ lastActivityTime st' = lastActivityTime st
        /\ errorMessage (fst (react ErrorExpired st')) = "").
Proof.
  split.
  - intros ty msg. cbn [react fst]. repeat split.
    unfold onPeerError. cbn [errorMessage set_errorMessage].
    destruct (String.eqb ty "peer-unavailable"); [reflexivity|].
    destruct (String.eqb ty "network" || String.eqb ty "disconnected");
      [reflexivity|].
    destruct (String.eqb ty "server-error"); reflexivity.
  - intros conn msg. cbn [react fst]. repeat split.
Qed.

(** ** The time-left label is cached *)








